(** * The Mir node event-dispatch core: worker routines and the fake batch database

    A shallow embedding of [workers.go] (package [mir]) and of
    [pkg/availability/batchdb/fakebatchdb/fakebatchdb.go], together with the
    parts of the [events] package, of the error notifier and of the dispatcher
    that the worker code relies on.

    Conventions of the embedding:
    - an [events.EventList] is a [list Event]; [PushBack] and [PushBackList]
      are back-insertion on lists;
    - a Go [error] value is [option error], [None] being [nil];
    - a [select] statement is described by the list of its ready cases; the
      statement blocks exactly when that list is empty, and otherwise proceeds
      with any one of the listed cases;
    - the calls a worker makes on its collaborators (interceptor, module,
      [workItemInput]) are recorded, in program order, in a trace of effects;
    - Go maps are [gmap]s. *)

From Stdlib Require Import List String Ascii Bool Arith Lia.
From stdpp Require Import gmap strings list fin_maps.
Import ListNotations.

Local Open Scope string_scope.
Local Open Scope list_scope.

(** ** Package [events]: events and event lists *)

Module events.

(** Identifier of a module, [t.ModuleID]. *)
Definition ModuleID := string.

(** Modelled from the spec: the [Event] type of the events package, which is
    not part of the sources at hand.  An event carries its destination
    module, a payload whose variant tag identifies its kind, and an ordered
    list of follow-up events, which are events themselves. *)
#[warnings="-register-all"]
Inductive Event : Type :=
  mkEvent (DestModule : ModuleID) (Payload : string) (Next : list Event).

Definition DestModule (e : Event) : ModuleID :=
  match e with mkEvent d _ _ => d end.

Definition Payload (e : Event) : string :=
  match e with mkEvent _ p _ => p end.

Definition Next (e : Event) : list Event :=
  match e with mkEvent _ _ n => n end.

Definition EventList := list Event.

Definition EmptyList : EventList := [].

(** [append(e)]: back-insertion of one event. *)
Definition PushBack (el : EventList) (e : Event) : EventList := el ++ [e].

(** [appendList(l)]: back-concatenation. *)
Definition PushBackList (el newEvents : EventList) : EventList := el ++ newEvents.

Definition Len (el : EventList) : nat := length el.

(** Modelled from the spec: stripping one event.  The plain event is the
    event with its follow-up field cleared; the stripped events are its
    follow-up list, untouched. *)
Definition Strip (e : Event) : Event * EventList :=
  (mkEvent (DestModule e) (Payload e) [], Next e).

(** The loop of [StripFollowUps]: one pass over the list, appending the plain
    event to the first result and the event's follow-ups to the second. *)
Fixpoint StripFollowUps_from (el plainEvents followUps : EventList)
  : EventList * EventList :=
  match el with
  | [] => (plainEvents, followUps)
  | event :: rest =>
      let '(plain, strippedEvents) := Strip event in
      StripFollowUps_from rest (PushBack plainEvents plain)
                          (PushBackList followUps strippedEvents)
  end.

(** Modelled from the spec: [StripFollowUps] of the events package, which is
    not part of the sources at hand: "returns the pair (plain, followUps)
    where plain is the list with each event's follow-up field cleared, and
    followUps is the concatenation, in original order, of the events'
    follow-up lists", built with the two append operations of the list. *)
Definition StripFollowUps (el : EventList) : EventList * EventList :=
  StripFollowUps_from el EmptyList EmptyList.

End events.

(** ** Package [mir]: the worker routines of [workers.go] *)

Module mir.
Import events.

(** *** Errors and panics *)

(** Go error values as the standard library builds them: [errors.New] and
    [fmt.Errorf] without [%w] give an [errorString], [fmt.Errorf] with [%w]
    gives a [wrapError] holding the formatted message and the wrapped error. *)
Inductive error : Type :=
| errorString (s : string)
| wrapError (msg : string) (err : error).

(** The [Error()] method. *)
Definition Error (e : error) : string :=
  match e with
  | errorString s => s
  | wrapError msg _ => msg
  end.

(** Modelled from the spec: the sentinel error [ErrStopped] ("Stopped:
    returned when a task exits due to cancellation or exit signal"), declared
    outside [workers.go]. *)
Definition ErrStopped : error := errorString "stopped at caller request".

(** What [recover()] returns for a panic: a value implementing [error], any
    other non-nil value, represented by its [%v] rendering, or nil.
    [recover()] returns nil for [panic(nil)] under the runtimes that keep the
    nil panic value (before Go 1.21, or with the panicnil setting); under the
    others [panic(nil)] is a panic with a runtime error, a [panicError]. *)
Inductive panicValue : Type :=
| panicError (rErr : error)
| panicOther (r : string)
| panicNil.

(** The result of calling a function that may panic. *)
Inductive call (A : Type) : Type :=
| Ret (a : A)
| Panic (r : panicValue).
Arguments Ret {A} a.
Arguments Panic {A} r.

(** The line feed of the format strings. *)
Definition nl : string := String (ascii_of_nat 10) EmptyString.

(** The [%v] rendering of a panic value: an error prints its message. *)
Definition render (r : panicValue) : string :=
  match r with
  | panicError rErr => Error rErr
  | panicOther v => v
  | panicNil => "<nil>"
  end.

(** [sub] occurs in [s]. *)
Definition contains (sub s : string) : Prop :=
  exists pre post : string, s = (pre ++ sub ++ post)%string.

(** *** Modules *)

(** [modules.PassiveModule]: [ApplyEvents(events)] returns an event list and
    an error. *)
Definition PassiveModule := EventList -> call (EventList * option error).

(** [modules.ActiveModule]: [ApplyEvents(ctx, events)] returns an error. *)
Definition ActiveModule := EventList -> call (option error).

(** A [modules.Module] value, as the type switch of [processModuleEvents]
    sees it.  The two interfaces declare [ApplyEvents] with different
    signatures, so no value implements both.  [OtherModule] stands for a value
    implementing neither; it carries the name [%T] prints for its type. *)
Inductive Module : Type :=
| IsPassive (m : PassiveModule)
| IsActive (m : ActiveModule)
| OtherModule (typeName : string).

(** Sample modules: a passive module that returns its input, a passive module
    that panics, and an active module that accepts everything. *)
Definition echo : PassiveModule := fun evs => Ret (evs, None).
Definition boom : PassiveModule := fun _ => Panic (panicOther "kapow").
Definition sink : ActiveModule := fun _ => Ret None.

(** A passive module whose panic [recover()] returns as nil. *)
Definition boomNil : PassiveModule := fun _ => Panic panicNil.

(** *** The error notifier *)

(** Modelled from the spec: the [workErrNotifier], declared outside
    [workers.go]: "a single-shot latch holding at most one error and an exit
    signal that becomes readable when the latch is set". *)
Record workErrNotifier : Type := mkNotifier {
  err : option error;
  exitC : bool
}.

Definition newWorkErrNotifier : workErrNotifier :=
  {| err := None; exitC := false |}.

(** Modelled from the spec: "[fail(err)] sets the latch iff unset and signals
    the exit channel". *)
Definition Fail (e : error) (wen : workErrNotifier) : workErrNotifier :=
  match err wen with
  | Some _ => wen
  | None => {| err := Some e; exitC := true |}
  end.

(** Modelled from the spec: "[err()] returns the latched error (or none)". *)
Definition Err (wen : workErrNotifier) : option error := err wen.

(** Modelled from the spec: "[exitSignal()] returns a readable-when-latched
    signal"; [true] when the signal is readable. *)
Definition ExitC (wen : workErrNotifier) : bool := exitC wen.

(** *** Channels and [select] *)

(** What a receive on a channel of event lists finds. *)
Inductive chanState : Type :=
| ChanEmpty
| ChanReady (l : EventList)
| ChanClosed.

(** The surroundings of a worker at a suspension point: its context, the
    channel it reads, whether the dispatcher is ready to take a value from
    [workItemInput], and the node's error notifier. *)
Record env : Type := mkEnv {
  ctxDone : bool;
  eventSource : chanState;
  workItemInputReady : bool;
  notifier : workErrNotifier
}.

(** The cases of the input [select] of [processModuleEvents]. *)
Inductive recvCase : Type :=
| RecvEvents (eventsIn : EventList)
| RecvClosed
| RecvCtxDone
| RecvExitC.

(** The cases of the output [select] of [processModuleEvents]. *)
Inductive sendCase : Type :=
| SendOk
| SendCtxDone
| SendExitC.

Definition sourceCases (c : chanState) : list recvCase :=
  match c with
  | ChanEmpty => []
  | ChanReady l => [RecvEvents l]
  | ChanClosed => [RecvClosed]
  end.

(** Ready cases of [select { case <-eventSource; case <-ctx.Done();
    case <-n.workErrNotifier.ExitC() }] (workers.go, lines 163-172). *)
Definition readyRecv (e : env) : list recvCase :=
  sourceCases (eventSource e)
  ++ (if ctxDone e then [RecvCtxDone] else [])
  ++ (if ExitC (notifier e) then [RecvExitC] else []).

(** Ready cases of [select { case workItemInput <- eventsOut;
    case <-ctx.Done(); case <-n.workErrNotifier.ExitC() }]
    (workers.go, lines 218-224). *)
Definition readySend (e : env) : list sendCase :=
  (if workItemInputReady e then [SendOk] else [])
  ++ (if ctxDone e then [SendCtxDone] else [])
  ++ (if ExitC (notifier e) then [SendExitC] else []).

(** The cases of the two [select]s of [processEvents]: the event source and
    [ctx.Done()] only. *)
Inductive recvCasePE : Type :=
| PERecv (eventsIn : option EventList)
| PERecvCtxDone.

Inductive sendCasePE : Type :=
| PESendOk
| PESendCtxDone.

(** Ready cases of [select { case eventsIn = <-eventSource;
    case <-ctx.Done() }] (workers.go, lines 101-105).  A closed source
    delivers the zero value, a nil list. *)
Definition readyRecvPE (e : env) : list recvCasePE :=
  match eventSource e with
  | ChanEmpty => []
  | ChanReady l => [PERecv (Some l)]
  | ChanClosed => [PERecv None]
  end
  ++ (if ctxDone e then [PERecvCtxDone] else []).

(** Ready cases of [select { case workItemInput <- out; case <-ctx.Done() }]
    (workers.go, lines 131-135). *)
Definition readySendPE (e : env) : list sendCasePE :=
  (if workItemInputReady e then [PESendOk] else [])
  ++ (if ctxDone e then [PESendCtxDone] else []).

(** A [select] blocks when none of its cases is ready. *)
Definition blocks {A : Type} (ready : list A) : bool :=
  match ready with
  | [] => true
  | _ :: _ => false
  end.

(** *** Effects of a worker *)

(** The calls a worker makes on the rest of the node, in program order. *)
Inductive effect : Type :=
| Intercept (evs : EventList)       (* the interceptor is handed evs *)
| ApplyPassive (evs : EventList)    (* PassiveModule.ApplyEvents(evs) *)
| ApplyActive (evs : EventList)     (* ActiveModule.ApplyEvents(ctx, evs) *)
| Process (evs : EventList)         (* processFunc(ctx, evs) *)
| Send (evs : EventList).           (* workItemInput <- evs *)

(** The lists written to [workItemInput] in a trace. *)
Fixpoint sent (tr : list effect) : list EventList :=
  match tr with
  | [] => []
  | Send evs :: tr' => evs :: sent tr'
  | _ :: tr' => sent tr'
  end.

(** The lists handed to the interceptor in a trace. *)
Fixpoint intercepted (tr : list effect) : list EventList :=
  match tr with
  | [] => []
  | Intercept evs :: tr' => evs :: intercepted tr'
  | _ :: tr' => intercepted tr'
  end.

(** The part of the [Node] the workers read: whether an interceptor is
    configured. *)
Record Node : Type := mkNode {
  interceptor : bool
}.

(** Modelled from the spec: [Node.interceptEvents], declared outside
    [workers.go]: "if an interceptor is configured, synchronously hand it
    plain before processing". *)
Definition interceptEvents (n : Node) (evs : EventList) : list effect :=
  if interceptor n then [Intercept evs] else [].

(** *** [safelyApplyEvents] (workers.go, lines 229-244) *)

(** [recover()] returns nil when the module returned, the [Ret] case, and the
    panic value when it panicked.  The deferred function sets [err] only under
    the guard [r != nil] (line 234): when [recover()] returns nil after a
    panic, the named results keep their zero values, a nil list and a nil
    error.  A nil list is the empty list here.  [stack] is what
    [debug.Stack()] returns in the deferred function. *)
Definition safelyApplyEvents (stack : string) (module : PassiveModule)
    (evs : EventList) : EventList * option error :=
  match module evs with
  | Ret (result, e) => (result, e)
  | Panic panicNil => (EmptyList, None)
  | Panic (panicError rErr) =>
      (EmptyList,
       Some (wrapError ("module panicked: " ++ Error rErr ++ nl
                        ++ "Stack trace:" ++ nl ++ stack) rErr))
  | Panic (panicOther v) =>
      (EmptyList,
       Some (errorString ("module panicked: " ++ v ++ nl
                          ++ "Stack trace:" ++ nl ++ stack)))
  end.

(** *** [Node.processModuleEvents] (workers.go, lines 154-227) *)

(** The result pairs the trace of effects with what the call does: it returns
    [(error, bool)], or a panic leaves it. *)
Definition cycleResult : Type := list effect * call (option error * bool).

(** The output part: lines 211-226. *)
Definition writeOutput (tr : list effect) (eventsOut : EventList)
    (sc : sendCase) : cycleResult :=
  if Nat.eqb (Len eventsOut) 0 then (tr, Ret (None, true))
  else
    match sc with
    | SendOk => (tr ++ [Send eventsOut], Ret (None, true))
    | SendCtxDone => (tr, Ret (None, false))
    | SendExitC => (tr, Ret (None, false))
    end.

(** The processing part, lines 174-209: follow-up stripping, interception and
    the type switch on the module.  It either leaves the function early (with
    an error, or by a panic of the module) or reaches the output part with the
    list [eventsOut]. *)
Definition processInput (n : Node) (stack : string) (module : Module)
    (eventsIn : EventList)
  : list effect * (call (option error * bool) + EventList) :=
  let '(plainEvents, followUps) := StripFollowUps eventsIn in
  let eventsOut := followUps in
  let tr := interceptEvents n plainEvents in
  match module with
  | IsPassive m =>
      match safelyApplyEvents stack m plainEvents with
      | (newEvents, Some e) =>
          (tr ++ [ApplyPassive plainEvents], inl (Ret (Some e, false)))
      | (newEvents, None) =>
          (tr ++ [ApplyPassive plainEvents], inr (PushBackList eventsOut newEvents))
      end
  | IsActive m =>
      match m plainEvents with
      | Panic r => (tr ++ [ApplyActive plainEvents], inl (Panic r))
      | Ret (Some e) => (tr ++ [ApplyActive plainEvents], inl (Ret (Some e, false)))
      | Ret None => (tr ++ [ApplyActive plainEvents], inr eventsOut)
      end
  | OtherModule typeName =>
      (tr, inl (Ret (Some (errorString ("unknown module type: " ++ typeName)), false)))
  end.

(** [rc] is the case the input [select] proceeds with and [sc] the case the
    output [select] proceeds with, if the call gets there. *)
Definition processModuleEvents (n : Node) (stack : string) (module : Module)
    (rc : recvCase) (sc : sendCase) : cycleResult :=
  match rc with
  | RecvClosed => ([], Ret (None, false))
  | RecvCtxDone => ([], Ret (None, false))
  | RecvExitC => ([], Ret (None, false))
  | RecvEvents eventsIn =>
      match processInput n stack module eventsIn with
      | (tr, inl early) => (tr, early)
      | (tr, inr eventsOut) => writeOutput tr eventsOut sc
      end
  end.

(** *** [Node.processEvents] (workers.go, lines 93-138) *)

(** [eventProcessor]. *)
Definition eventProcessor := EventList -> call (EventList * option error).

(** The events package is not part of the sources at hand: calling
    [StripFollowUps] on the nil list a closed source delivers is taken to
    dereference the nil pointer. *)
Definition nilDereference : panicValue :=
  panicError (errorString "runtime error: invalid memory address or nil pointer dereference").

Definition processEvents (n : Node) (processFunc : eventProcessor)
    (rc : recvCasePE) (sc : sendCasePE) : list effect * call (option error) :=
  match rc with
  | PERecvCtxDone => ([], Ret (Some ErrStopped))
  | PERecv None => ([], Panic nilDereference)
  | PERecv (Some eventsIn) =>
      let '(plainEvents, followUps) := StripFollowUps eventsIn in
      let tr := interceptEvents n plainEvents ++ [Process plainEvents] in
      match processFunc plainEvents with
      | Panic r => (tr, Panic r)
      | Ret (newEvents, Some e) =>
          (tr, Ret (Some (wrapError ("could not process events: " ++ Error e) e)))
      | Ret (newEvents, None) =>
          let out := PushBackList followUps newEvents in
          if Nat.eqb (Len out) 0 then (tr, Ret None)
          else
            match sc with
            | PESendOk => (tr ++ [Send out], Ret None)
            | PESendCtxDone => (tr, Ret (Some ErrStopped))
            end
      end
  end.

(** *** [Node.doUntilErr] (workers.go, lines 69-77) *)

Section DoUntilErr.

(** The state the work function evolves: everything it reads and writes. *)
Context {World : Type}.

(** [workFunc]: a call returns an error (or nil) and leaves a new state. *)
Definition workFunc := World -> call (World * option error).

(** The infinite loop, with a bound on the number of iterations: [None] when
    the bound is exhausted.  [wen] is the notifier as [Fail] finds it. *)
Fixpoint doUntilErr (fuel : nat) (work : workFunc) (w : World)
    (wen : workErrNotifier) : option (call (World * workErrNotifier)) :=
  match fuel with
  | O => None
  | S fuel' =>
      match work w with
      | Panic r => Some (Panic r)
      | Ret (w', Some e) => Some (Ret (w', Fail e wen))
      | Ret (w', None) => doUntilErr fuel' work w' wen
      end
  end.

(** [k] successive calls of the work function, from [w], return nil and lead
    to [w']. *)
Fixpoint nilRuns (work : workFunc) (k : nat) (w w' : World) : Prop :=
  match k with
  | O => w = w'
  | S k' => exists w1, work w = Ret (w1, None) /\ nilRuns work k' w1 w'
  end.

End DoUntilErr.

(** A worker running [processEvents].  [sched i] gives the cases the two
    [select]s of the [i]-th call proceed with; the state is the number of
    calls made so far. *)
Definition processEventsWork (n : Node) (processFunc : eventProcessor)
    (sched : nat -> recvCasePE * sendCasePE) : @workFunc nat :=
  fun i =>
    match snd (processEvents n processFunc (fst (sched i)) (snd (sched i))) with
    | Ret e => Ret (S i, e)
    | Panic r => Panic r
    end.

(** *** The dispatcher *)

(** The per-module inbound channels, [genericWorkChans]: for each registered
    module, the event lists forwarded to it and not yet read by its worker,
    oldest first. *)
Abbreviation workChans := (gmap ModuleID (list EventList)).

(** The destinations of a list, each once, in order of first appearance. *)
Fixpoint destinations (evs : EventList) : list ModuleID :=
  match evs with
  | [] => []
  | e :: rest =>
      DestModule e :: List.filter (fun d => negb (String.eqb d (DestModule e))) (destinations rest)
  end.

(** The stable split of a list by destination. *)
Definition partitionFor (dest : ModuleID) (evs : EventList) : EventList :=
  List.filter (fun e => String.eqb (DestModule e) dest) evs.

(** Forwarding one partition; no registered module at the destination is a
    lookup failure. *)
Definition forward (evs : EventList) (chans : option workChans) (dest : ModuleID)
  : option workChans :=
  match chans with
  | None => None
  | Some c =>
      match c !! dest with
      | None => None
      | Some queue => Some (<[dest := queue ++ [partitionFor dest evs]]> c)
      end
  end.

(** Modelled from the spec: one turn of the dispatcher, which is declared
    outside [workers.go]: "partition each list by destination ModuleID, and
    forward each partition to the destination module's inbound channel";
    "lookup failures during dispatch are fatal". *)
Definition dispatch (chans : workChans) (evs : EventList) : option workChans :=
  fold_left (forward evs) (destinations evs) (Some chans).

(** The dispatcher handling, in order, the lists written to
    [workItemInput]. *)
Fixpoint dispatchAll (chans : workChans) (inputs : list EventList)
  : option workChans :=
  match inputs with
  | [] => Some chans
  | evs :: rest =>
      match dispatch chans evs with
      | None => None
      | Some chans' => dispatchAll chans' rest
      end
  end.

(** The emit step without the short-circuit on empty lists: every outbound
    list is written. *)
Definition writeOutputAlways (tr : list effect) (eventsOut : EventList)
    (sc : sendCase) : cycleResult :=
  match sc with
  | SendOk => (tr ++ [Send eventsOut], Ret (None, true))
  | SendCtxDone => (tr, Ret (None, false))
  | SendExitC => (tr, Ret (None, false))
  end.

(** The processing cycle of an implementation that omits the short-circuit:
    [processModuleEvents] with lines 211-215 left out. *)
Definition processModuleEventsAlways (n : Node) (stack : string)
    (module : Module) (rc : recvCase) (sc : sendCase) : cycleResult :=
  match rc with
  | RecvClosed => ([], Ret (None, false))
  | RecvCtxDone => ([], Ret (None, false))
  | RecvExitC => ([], Ret (None, false))
  | RecvEvents eventsIn =>
      match processInput n stack module eventsIn with
      | (tr, inl early) => (tr, early)
      | (tr, inr eventsOut) => writeOutputAlways tr eventsOut sc
      end
  end.

(** [newWorkChans] (workers.go, lines 44-59), its [genericWorkChans] part: one
    fresh channel, with nothing pending, for each key of
    [modules.GenericModules]. *)
Definition newWorkChans (GenericModules : gmap ModuleID Module) : workChans :=
  map_fold (fun moduleID _ genericWorkChans => <[moduleID := []]> genericWorkChans)
           ∅ GenericModules.

End mir.

(** ** Package [fakebatchdb]: the in-memory batch database *)

Module fakebatchdb.

(** [msctypes.BatchID] and [tt.TxID], the keys of the two Go maps. *)
Definition BatchID := string.
Definition TxID := string.

(** The [Type] field of the origins of batchdbpb.proto: a context-store origin
    or a dsl origin, each identified by a number. *)
Inductive OriginType : Type :=
| ContextStore (origin : N)
| Dsl (origin : N).

(** [LookupBatchOrigin] and [StoreBatchOrigin] of batchdbpb.proto. *)
Record LookupBatchOrigin : Type := mkLookupBatchOrigin {
  lookupModule : events.ModuleID;
  lookupType : OriginType
}.

Record StoreBatchOrigin : Type := mkStoreBatchOrigin {
  storeModule : events.ModuleID;
  storeType : OriginType
}.

Section WithTransaction.

(** [trantorpbtypes.Transaction]; the module only moves pointers to it. *)
Context {Transaction : Type}.

(** A [*trantorpbtypes.Transaction]: [None] is the nil pointer. *)
Definition TransactionPtr := option Transaction.

Record batchInfo : Type := mkBatchInfo {
  txIDs : list TxID;
  metadata : list Byte.byte
}.

Record moduleState : Type := mkModuleState {
  BatchStore : gmap BatchID batchInfo;
  TransactionStore : gmap TxID TransactionPtr
}.

(** The state [NewModule] starts from: two empty maps. *)
Definition newModuleState : moduleState :=
  {| BatchStore := ∅; TransactionStore := ∅ |}.

(** The events of batchdbpb.proto the module emits, with their destination. *)
Inductive emitted : Type :=
| LookupBatchResponse (destModule : events.ModuleID) (found : bool)
    (txs : list TransactionPtr) (origin : LookupBatchOrigin)
| BatchStored (destModule : events.ModuleID) (origin : StoreBatchOrigin).

(** Reading a Go map: the zero value, nil, for an absent key. *)
Definition txOf (store : gmap TxID TransactionPtr) (txID : TxID) : TransactionPtr :=
  match store !! txID with
  | Some tx => tx
  | None => None
  end.

(** [for i, txID := range txIDs { state.TransactionStore[txID] = txs[i] }],
    from index [i] on; [None] is the index-out-of-range panic of [txs[i]]. *)
Fixpoint storeTransactions (i : nat) (ids : list TxID) (txs : list TransactionPtr)
    (store : gmap TxID TransactionPtr) : option (gmap TxID TransactionPtr) :=
  match ids with
  | [] => Some store
  | txID :: rest =>
      match txs !! i with
      | None => None
      | Some tx => storeTransactions (S i) rest txs (<[txID := tx]> store)
      end
  end.

(** The [UponStoreBatch] handler (lines 40-52), for an origin that is not
    nil: the new state and the events emitted, or [None] when the handler
    panics.  [receive] below covers the nil origin. *)
Definition UponStoreBatch (state : moduleState) (batchID : BatchID)
    (ids : list TxID) (txs : list TransactionPtr) (meta : list Byte.byte)
    (origin : StoreBatchOrigin) : option (moduleState * list emitted) :=
  let batches := <[batchID := {| txIDs := ids; metadata := meta |}]> (BatchStore state) in
  match storeTransactions 0 ids txs (TransactionStore state) with
  | None => None
  | Some transactions =>
      Some ({| BatchStore := batches; TransactionStore := transactions |},
            [BatchStored (storeModule origin) origin])
  end.

(** The [UponLookupBatch] handler (lines 55-70), for an origin that is not
    nil; it leaves the state as it is.  [receive] below covers the nil
    origin. *)
Definition UponLookupBatch (state : moduleState) (batchID : BatchID)
    (origin : LookupBatchOrigin) : list emitted :=
  match BatchStore state !! batchID with
  | None => [LookupBatchResponse (lookupModule origin) false [] origin]
  | Some info =>
      let txs := txOf (TransactionStore state) <$> txIDs info in
      [LookupBatchResponse (lookupModule origin) true txs origin]
  end.

(** The two requests the module handles. *)
Inductive request : Type :=
| StoreBatch (batchID : BatchID) (ids : list TxID) (txs : list TransactionPtr)
    (meta : list Byte.byte) (origin : StoreBatchOrigin)
| LookupBatch (batchID : BatchID) (origin : LookupBatchOrigin).

Definition handle (state : moduleState) (r : request)
  : option (moduleState * list emitted) :=
  match r with
  | StoreBatch batchID ids txs meta origin =>
      UponStoreBatch state batchID ids txs meta origin
  | LookupBatch batchID origin =>
      Some (state, UponLookupBatch state batchID origin)
  end.

(** Handling a sequence of requests, oldest first; [None] once a handler has
    panicked. *)
Fixpoint handleAll (state : moduleState) (rs : list request) : option moduleState :=
  match rs with
  | [] => Some state
  | r :: rest =>
      match handle state r with
      | None => None
      | Some (state', _) => handleAll state' rest
      end
  end.

(** The batch identifiers a sequence of requests stores. *)
Fixpoint storedBatchIDs (rs : list request) : list BatchID :=
  match rs with
  | [] => []
  | StoreBatch batchID _ _ _ _ :: rest => batchID :: storedBatchIDs rest
  | LookupBatch _ _ :: rest => storedBatchIDs rest
  end.

(** The two events as the module receives them: the origin is a pointer,
    [None] being nil. *)
Inductive received : Type :=
| ReceivedStoreBatch (batchID : BatchID) (ids : list TxID)
    (txs : list TransactionPtr) (meta : list Byte.byte)
    (origin : option StoreBatchOrigin)
| ReceivedLookupBatch (batchID : BatchID) (origin : option LookupBatchOrigin).

(** The handlers on a received event.  Each of them reads [origin.Module]
    (lines 50, 59 and 68) on every path that does not panic before, so that a
    nil origin makes it panic ([None]). *)
Definition receive (state : moduleState) (ev : received)
  : option (moduleState * list emitted) :=
  match ev with
  | ReceivedStoreBatch batchID ids txs meta (Some origin) =>
      UponStoreBatch state batchID ids txs meta origin
  | ReceivedStoreBatch _ _ _ _ None => None
  | ReceivedLookupBatch batchID (Some origin) =>
      Some (state, UponLookupBatch state batchID origin)
  | ReceivedLookupBatch _ None => None
  end.

(** Receiving a sequence of events, oldest first; [None] once a handler has
    panicked. *)
Fixpoint receiveAll (state : moduleState) (evs : list received)
  : option moduleState :=
  match evs with
  | [] => Some state
  | ev :: rest =>
      match receive state ev with
      | None => None
      | Some (state', _) => receiveAll state' rest
      end
  end.

End WithTransaction.

Arguments TransactionPtr : clear implicits.
Arguments moduleState : clear implicits.
Arguments emitted : clear implicits.
Arguments request : clear implicits.
Arguments received : clear implicits.

End fakebatchdb.

(** ** Package [sliceutil]: helpers on slices *)

Module sliceutil.

Section Slices.

(** The element type, with its zero value, and what the Go runtime can
    allocate: [allocates n] tells whether [make([]T, n)] succeeds for a
    length [n] that is not negative.  The limit depends on the size of [T] and
    on the memory at hand. *)
Context {T : Type} (zero : T) (allocates : Z -> bool).

(** [make([]T, n)]: [n] zero values.  It fails ([None]) for a negative length
    and for a length the runtime does not allocate (the panic
    "makeslice: len out of range", or the runtime running out of memory). *)
Definition make (n : Z) : option (list T) :=
  if (n <? 0)%Z then None
  else if allocates n then Some (replicate (Z.to_nat n) zero)
  else None.

(** [arr[i] = v]; an index out of range panics ([None]). *)
Definition assign (arr : list T) (i : nat) (v : T) : option (list T) :=
  if Nat.ltb i (length arr) then Some (<[i := v]> arr) else None.

(** [for i := ...; i < n; i++ { arr[i] = value }], with [remaining]
    iterations left from index [i]. *)
Fixpoint Repeat_from (value : T) (remaining i : nat) (arr : list T)
  : option (list T) :=
  match remaining with
  | O => Some arr
  | S remaining' =>
      match assign arr i value with
      | None => None
      | Some arr' => Repeat_from value remaining' (S i) arr'
      end
  end.

(** [Repeat] (lines 4-10). *)
Definition Repeat (value : T) (n : Z) : option (list T) :=
  match make n with
  | None => None
  | Some arr => Repeat_from value (Z.to_nat n) 0 arr
  end.

(** [for i := ...; i < n; i++ { arr[i] = f(i) }]. *)
Fixpoint Generate_from (f : nat -> T) (remaining i : nat) (arr : list T)
  : option (list T) :=
  match remaining with
  | O => Some arr
  | S remaining' =>
      match assign arr i (f i) with
      | None => None
      | Some arr' => Generate_from f remaining' (S i) arr'
      end
  end.

(** [Generate] (lines 12-18). *)
Definition Generate (n : Z) (f : nat -> T) : option (list T) :=
  match make n with
  | None => None
  | Some arr => Generate_from f (Z.to_nat n) 0 arr
  end.

(** [for i, t := range ts { if f(i, t) { res = append(res, t) } }], from
    index [i] on. *)
Fixpoint Filter_from (f : nat -> T -> bool) (i : nat) (ts res : list T) : list T :=
  match ts with
  | [] => res
  | t :: rest => Filter_from f (S i) rest (if f i t then res ++ [t] else res)
  end.

(** [Filter] (lines 28-36); [res] starts as the nil slice. *)
Definition Filter (ts : list T) (f : nat -> T -> bool) : list T :=
  Filter_from f 0 ts [].

(** [Any] (lines 61-68). *)
Definition Any (ts : list T) : T * bool :=
  match ts with
  | [] => (zero, false)
  | t :: _ => (t, true)
  end.

End Slices.

Section Transform.

(** [allocates] is about slices of the result type [R]. *)
Context {T R : Type} (zero : R) (allocates : Z -> bool).

(** [for i, t := range ts { rs[i] = f(i, t) }], from index [i] on. *)
Fixpoint Transform_from (f : nat -> T -> R) (i : nat) (ts : list T) (rs : list R)
  : option (list R) :=
  match ts with
  | [] => Some rs
  | t :: rest =>
      match assign rs i (f i t) with
      | None => None
      | Some rs' => Transform_from f (S i) rest rs'
      end
  end.

(** [Transform] (lines 20-26). *)
Definition Transform (ts : list T) (f : nat -> T -> R) : option (list R) :=
  match make zero allocates (Z.of_nat (length ts)) with
  | None => None
  | Some rs => Transform_from f 0 ts rs
  end.

End Transform.

Section Comparable.

(** A comparable element type.  [equals v t] is Go's [v == t]: [None] when
    the comparison panics (interface values holding values that cannot be
    compared).  It need not be reflexive: a floating-point NaN differs from
    itself. *)
Context {T : Type} (equals : T -> T -> option bool).

(** [Contains] (lines 39-46); [None] when a comparison panics. *)
Fixpoint Contains (ts : list T) (t : T) : option bool :=
  match ts with
  | [] => Some false
  | v :: rest =>
      match equals v t with
      | None => None
      | Some true => Some true
      | Some false => Contains rest t
      end
  end.

(** [ContainsAll] (lines 49-56). *)
Fixpoint ContainsAll (ts ts2 : list T) : option bool :=
  match ts2 with
  | [] => Some true
  | t :: rest =>
      match Contains ts t with
      | None => None
      | Some false => Some false
      | Some true => ContainsAll ts rest
      end
  end.

(** [for i, v := range s1 { if v != s2[i] { return false } }], from index [i]
    on; reading [s2[i]] out of range panics ([None]), as does a comparison
    that panics. *)
Fixpoint Equal_from (i : nat) (s1 s2 : list T) : option bool :=
  match s1 with
  | [] => Some true
  | v :: rest =>
      match s2 !! i with
      | None => None
      | Some v2 =>
          match equals v v2 with
          | None => None
          | Some true => Equal_from (S i) rest s2
          | Some false => Some false
          end
      end
  end.

(** [Equal] (lines 71-81). *)
Definition Equal (s1 s2 : list T) : option bool :=
  if negb (Nat.eqb (length s1) (length s2)) then Some false
  else Equal_from 0 s1 s2.

End Comparable.

(** The comparison of an element type whose [==] never panics and holds
    exactly between equal values, as for integers and strings; it fails for
    floating-point types (a NaN differs from itself) and for interface
    types (the comparison can panic). *)
Definition decidesEquality {T : Type} `{EqDecision T}
    (equals : T -> T -> option bool) : Prop :=
  forall x y : T, equals x y = Some (bool_decide (x = y)).

(** [==] on [int]: it never panics and decides equality. *)
Definition intEquals (x y : Z) : option bool := Some (Z.eqb x y).

End sliceutil.

(** * Properties *)

Import events mir.

(** ** Follow-up stripping *)

Section StripFollowUps.

Lemma StripFollowUps_from_eq (el plainEvents followUps : EventList) :
  StripFollowUps_from el plainEvents followUps
  = (plainEvents ++ map (fun e => fst (Strip e)) el,
     followUps ++ concat (map Next el)).
Proof.
  revert plainEvents followUps.
  induction el as [|event rest IH]; intros plainEvents followUps; simpl.
  - now rewrite !app_nil_r.
  - rewrite IH. unfold PushBack, PushBackList.
    now rewrite <- !app_assoc.
Qed.

Lemma StripFollowUps_eq (el : EventList) :
  StripFollowUps el = (map (fun e => fst (Strip e)) el, concat (map Next el)).
Proof. unfold StripFollowUps. now rewrite StripFollowUps_from_eq. Qed.

Example StripFollowUps_nested :
  let z := mkEvent "m3" "z" [] in
  let y := mkEvent "m2" "y" [z] in
  let x := mkEvent "m1" "x" [y; z] in
  StripFollowUps [x; y]
  = ([mkEvent "m1" "x" []; mkEvent "m2" "y" []], [y; z; z]).
Proof. reflexivity. Qed.

(** C1.  For every event list [L], [StripFollowUps L] is a pair
    [(plain, followUps)] where [plain] has the length of [L] and is [L],
    event by event and in the same order, with the follow-up field cleared,
    and [followUps] is the concatenation, in the order of their carriers in
    [L], of the follow-up lists of the events of [L], each follow-up event
    left as it is (with its own follow-ups attached). *)
Theorem StripFollowUps_correct (L : EventList) :
  Len (fst (StripFollowUps L)) = Len L
  /\ fst (StripFollowUps L)
     = map (fun e => mkEvent (DestModule e) (Payload e) []) L
  /\ (forall i e, nth_error L i = Some e ->
        nth_error (fst (StripFollowUps L)) i
        = Some (mkEvent (DestModule e) (Payload e) []))
  /\ Forall (fun e => Next e = []) (fst (StripFollowUps L))
  /\ snd (StripFollowUps L) = concat (map Next L).
Proof.
  rewrite StripFollowUps_eq. simpl. unfold Len.
  repeat split.
  - apply length_map.
  - intros i e Hi. rewrite nth_error_map, Hi. reflexivity.
  - apply List.Forall_forall. intros e He. apply in_map_iff in He.
    destruct He as [e0 [<- _]]. reflexivity.
Qed.

End StripFollowUps.

(** ** The processing cycle of a worker *)

Section ProcessingCycle.

Variable n : Node.
Variable stack : string.

Lemma append_nil_r (s : string) : (s ++ EmptyString)%string = s.
Proof.
  induction s as [|c s IH]; [reflexivity |].
  exact (f_equal (String c) IH).
Qed.

Lemma append_assoc (a b c : string) :
  ((a ++ b) ++ c)%string = (a ++ b ++ c)%string.
Proof.
  induction a as [|ch a IH]; [reflexivity |].
  exact (f_equal (String ch) IH).
Qed.

Lemma contains_mid (pre sub post : string) :
  contains sub (pre ++ sub ++ post)%string.
Proof. exists pre, post. reflexivity. Qed.

Lemma contains_end (pre sub : string) : contains sub (pre ++ sub)%string.
Proof. exists pre, EmptyString. now rewrite append_nil_r. Qed.

Example safelyApplyEvents_kapow :
  safelyApplyEvents "goroutine 1 [running]" boom []
  = ([], Some (errorString
        ("module panicked: kapow" ++ nl ++ "Stack trace:" ++ nl
         ++ "goroutine 1 [running]"))).
Proof. reflexivity. Qed.

(** Whatever the list, a panic of the module with a value [recover()] returns
    as non-nil is turned into an error that holds the rendering of the value
    and the stack trace. *)
Lemma safelyApplyEvents_recovers (evs : EventList) (r : panicValue)
    (pm : PassiveModule) :
  pm evs = Panic r ->
  r <> panicNil ->
  exists e : error,
    safelyApplyEvents stack pm evs = (EmptyList, Some e)
    /\ contains (render r) (Error e)
    /\ contains stack (Error e).
Proof.
  intros Hpm Hnil. unfold safelyApplyEvents. rewrite Hpm.
  destruct r as [rErr | v |]; [| | congruence]; simpl;
    (eexists; split; [reflexivity |]); simpl; split;
    solve [apply contains_mid | rewrite <- !append_assoc; apply contains_end].
Qed.

(** C4, as the code has it.  When the [ApplyEvents] of a passive module panics
    with a value [r] that [recover()] returns as non-nil, [safelyApplyEvents]
    returns, with a non-nil error whose message contains the rendering of [r]
    and the captured stack trace, and the processing cycle returns that
    error; when the [ApplyEvents] of an active module panics, with any value
    [r'], the panic leaves [processModuleEvents]. *)
Theorem safelyApplyEvents_guards_passive_only
    (L : EventList) (sc : sendCase) (r r' : panicValue)
    (pm : PassiveModule) (am : ActiveModule) :
  pm (fst (StripFollowUps L)) = Panic r ->
  r <> panicNil ->
  am (fst (StripFollowUps L)) = Panic r' ->
  (exists e : error,
      safelyApplyEvents stack pm (fst (StripFollowUps L)) = (EmptyList, Some e)
      /\ contains (render r) (Error e)
      /\ contains stack (Error e)
      /\ snd (processModuleEvents n stack (IsPassive pm) (RecvEvents L) sc)
         = Ret (Some e, false))
  /\ snd (processModuleEvents n stack (IsActive am) (RecvEvents L) sc) = Panic r'.
Proof.
  intros Hpm Hnil Ham. split.
  - destruct (safelyApplyEvents_recovers _ _ _ Hpm Hnil) as [e [Happly [Hr Hstack]]].
    exists e. repeat split; try assumption.
    simpl. unfold processInput.
    destruct (StripFollowUps L) as [plain followUps]. simpl in Happly.
    rewrite Happly. reflexivity.
  - simpl. unfold processInput.
    destruct (StripFollowUps L) as [plain followUps]. simpl in Ham.
    rewrite Ham. reflexivity.
Qed.

(** C9.  For a module value that implements neither interface, a cycle that
    reads an event list returns the error [unknown module type: T] with the
    continue flag false, and writes nothing to [workItemInput]. *)
Theorem unknown_module_type (typeName : string) (L : EventList) (sc : sendCase) :
  snd (processModuleEvents n stack (OtherModule typeName) (RecvEvents L) sc)
  = Ret (Some (errorString ("unknown module type: " ++ typeName)), false)
  /\ sent (fst (processModuleEvents n stack (OtherModule typeName) (RecvEvents L) sc)) = [].
Proof.
  simpl. unfold processInput.
  destruct (StripFollowUps L) as [plain followUps]. simpl.
  split; [reflexivity |].
  unfold interceptEvents. destruct (interceptor n); reflexivity.
Qed.

Lemma sent_app (tr1 tr2 : list effect) : sent (tr1 ++ tr2) = sent tr1 ++ sent tr2.
Proof.
  induction tr1 as [|ef tr1 IH]; [reflexivity |].
  destruct ef; simpl; now rewrite IH.
Qed.

Lemma sent_interceptEvents (evs : EventList) : sent (interceptEvents n evs) = [].
Proof. unfold interceptEvents. destruct (interceptor n); reflexivity. Qed.

(** The processing part writes nothing to [workItemInput]. *)
Lemma sent_processInput (module : Module) (L : EventList) :
  sent (fst (processInput n stack module L)) = [].
Proof.
  unfold processInput. destruct (StripFollowUps L) as [plain followUps].
  destruct module as [pm | am | typeName].
  - destruct (safelyApplyEvents stack pm plain) as [newEvents [e|]]; simpl;
      now rewrite sent_app, sent_interceptEvents.
  - destruct (am plain) as [[e|] | r]; simpl;
      now rewrite sent_app, sent_interceptEvents.
  - simpl. apply sent_interceptEvents.
Qed.

(** The guarded call returns a nil error when the module returned one, and
    when the module panicked and [recover()] returned nil. *)
Lemma safelyApplyEvents_nil_error (pm : PassiveModule) (evs newEvents : EventList) :
  safelyApplyEvents stack pm evs = (newEvents, None) ->
  pm evs = Ret (newEvents, None)
  \/ (pm evs = Panic panicNil /\ newEvents = []).
Proof.
  unfold safelyApplyEvents.
  destruct (pm evs) as [[result e] | [rErr | v |]]; intros H; inversion H; auto.
Qed.

Example echo_cycle :
  let y := mkEvent "m2" "y" [] in
  let x := mkEvent "echo" "x" [y] in
  processModuleEvents (mkNode true) stack (IsPassive echo) (RecvEvents [x]) SendOk
  = ([Intercept [mkEvent "echo" "x" []]; ApplyPassive [mkEvent "echo" "x" []];
      Send [y; mkEvent "echo" "x" []]], Ret (None, true)).
Proof. reflexivity. Qed.

(** C5.  In a cycle that reads [L] and returns [(nil, true)], what is written
    to [workItemInput] is the outbound list, once, unless it is empty; for a
    passive module the outbound list is the stripped follow-ups followed by
    the events its [ApplyEvents] returned (none when it panicked and
    [recover()] returned nil), for an active module it is the stripped
    follow-ups alone. *)
Theorem outbound_list_composition (module : Module) (L : EventList) (sc : sendCase) :
  snd (processModuleEvents n stack module (RecvEvents L) sc) = Ret (None, true) ->
  exists out : EventList,
    sent (fst (processModuleEvents n stack module (RecvEvents L) sc))
    = match out with [] => [] | _ :: _ => [out] end
    /\ match module with
       | IsPassive pm =>
           exists newEvents,
             (pm (fst (StripFollowUps L)) = Ret (newEvents, None)
              \/ (pm (fst (StripFollowUps L)) = Panic panicNil
                  /\ newEvents = []))
             /\ out = snd (StripFollowUps L) ++ newEvents
       | IsActive am =>
           am (fst (StripFollowUps L)) = Ret None
           /\ out = snd (StripFollowUps L)
       | OtherModule _ => False
       end.
Proof.
  pose proof (sent_processInput module L) as Hsent.
  simpl. revert Hsent. unfold processInput.
  destruct (StripFollowUps L) as [plain followUps]. simpl.
  destruct module as [pm | am | typeName].
  - destruct (safelyApplyEvents stack pm plain) as [newEvents [e|]] eqn:Happly;
      simpl; intros Hsent Hret; [discriminate |].
    exists (followUps ++ newEvents). split.
    + revert Hret. unfold writeOutput, PushBackList, Len.
      destruct (followUps ++ newEvents) as [|ev out]; simpl; [now rewrite Hsent |].
      destruct sc; simpl; intros Hret; try discriminate.
      rewrite sent_app, Hsent. reflexivity.
    + exists newEvents. split; [|reflexivity].
      now apply safelyApplyEvents_nil_error.
  - destruct (am plain) as [[e|] | r]; simpl; intros Hsent Hret; try discriminate.
    exists followUps. split; [|split; reflexivity].
    revert Hret. unfold writeOutput, Len.
    destruct followUps as [|ev out]; simpl; [now rewrite Hsent |].
    destruct sc; simpl; intros Hret; try discriminate.
    rewrite sent_app, Hsent. reflexivity.
  - simpl. intros _ Hret. discriminate.
Qed.

(** The same composition in [processEvents]: what it writes is the stripped
    follow-ups followed by the events of the processing function. *)
Lemma processEvents_outbound (processFunc : eventProcessor) (L newEvents : EventList) :
  processFunc (fst (StripFollowUps L)) = Ret (newEvents, None) ->
  sent (fst (processEvents n processFunc (PERecv (Some L)) PESendOk))
  = match snd (StripFollowUps L) ++ newEvents with
    | [] => []
    | _ :: _ => [snd (StripFollowUps L) ++ newEvents]
    end.
Proof.
  simpl. destruct (StripFollowUps L) as [plain followUps]. simpl.
  intros ->. unfold PushBackList, Len.
  destruct (followUps ++ newEvents) as [|ev out]; simpl;
    rewrite !sent_app, sent_interceptEvents; reflexivity.
Qed.


Lemma dispatchAll_app (chans : workChans) (in1 in2 : list EventList) :
  dispatchAll chans (in1 ++ in2)
  = match dispatchAll chans in1 with
    | None => None
    | Some chans' => dispatchAll chans' in2
    end.
Proof.
  revert chans. induction in1 as [|evs in1 IH]; intros chans; simpl.
  - reflexivity.
  - destruct (dispatch chans evs) as [chans'|]; [apply IH | reflexivity].
Qed.

(** The dispatcher forwards nothing for the empty list. *)
Lemma dispatch_empty (chans : workChans) : dispatch chans [] = Some chans.
Proof. reflexivity. Qed.

Lemma dispatchAll_skip_empty (chans : workChans) (before later : list EventList) :
  dispatchAll chans (before ++ [[]] ++ later) = dispatchAll chans (before ++ later).
Proof.
  rewrite !dispatchAll_app.
  destruct (dispatchAll chans before) as [chans'|]; reflexivity.
Qed.

Example dispatch_two_modules :
  let a := mkEvent "m1" "a" [] in
  let b := mkEvent "m2" "b" [] in
  let c := mkEvent "m1" "c" [] in
  dispatch {[ "m1" := []; "m2" := [] ]} [a; b; c]
  = Some {[ "m1" := [[a; c]]; "m2" := [[b]] ]}.
Proof. vm_compute. reflexivity. Qed.

(** C7.  When the outbound list of a cycle is empty, the cycle returns
    [(nil, true)] and writes nothing to [workItemInput].  A cycle without the
    short-circuit writes the empty list instead, for which the dispatcher
    forwards nothing: whatever was written before and is written later, the
    dispatcher leaves the same event lists, in the same order, on the inbound
    channel of every module in both cases. *)
Theorem empty_outbound_is_dropped (module : Module) (L : EventList)
    (tr : list effect) (sc : sendCase) (chans : workChans)
    (before later : list EventList) :
  processInput n stack module L = (tr, inr []) ->
  processModuleEvents n stack module (RecvEvents L) sc = (tr, Ret (None, true))
  /\ sent (fst (processModuleEvents n stack module (RecvEvents L) sc)) = []
  /\ sent (fst (processModuleEventsAlways n stack module (RecvEvents L) SendOk)) = [[]]
  /\ snd (processModuleEventsAlways n stack module (RecvEvents L) SendOk)
     = snd (processModuleEvents n stack module (RecvEvents L) SendOk)
  /\ dispatch chans [] = Some chans
  /\ dispatchAll chans
       (before
        ++ sent (fst (processModuleEventsAlways n stack module (RecvEvents L) SendOk))
        ++ later)
     = dispatchAll chans
       (before
        ++ sent (fst (processModuleEvents n stack module (RecvEvents L) SendOk))
        ++ later).
Proof.
  intros Hin.
  assert (Htr : sent tr = []).
  { pose proof (sent_processInput module L) as H. now rewrite Hin in H. }
  simpl. rewrite Hin. simpl. rewrite sent_app, Htr. simpl.
  repeat split; try reflexivity; try assumption.
  apply dispatchAll_skip_empty.
Qed.

End ProcessingCycle.

(** ** The error notifier and [doUntilErr] *)

Section ErrorNotifier.

(** A second [Fail] changes nothing. *)
Lemma Fail_Fail (e1 e2 : error) (wen : workErrNotifier) :
  Fail e2 (Fail e1 wen) = Fail e1 wen.
Proof. unfold Fail. destruct (err wen) eqn:Hw; simpl; now rewrite ?Hw. Qed.

(** [Fail] keeps an error that is already latched. *)
Lemma Err_Fail (e : error) (wen : workErrNotifier) :
  Err (Fail e wen) = match Err wen with Some e0 => Some e0 | None => Some e end.
Proof. unfold Fail, Err. destruct (err wen) eqn:Hw; simpl; now rewrite ?Hw. Qed.

(** C8.  On a notifier with no latched error, [Fail err1] followed by
    [Fail err2] leaves [err1] latched and the exit signal signalled, as after
    [Fail err1] alone; [Err] then returns [err1]. *)
Theorem Fail_idempotent (err1 err2 : error) (wen : workErrNotifier) :
  Err wen = None ->
  Err (Fail err2 (Fail err1 wen)) = Some err1
  /\ ExitC (Fail err2 (Fail err1 wen)) = true
  /\ ExitC (Fail err1 wen) = true
  /\ Fail err2 (Fail err1 wen) = Fail err1 wen.
Proof.
  intros Hunset. rewrite Fail_Fail. unfold Err in Hunset.
  unfold Fail, Err, ExitC. rewrite Hunset. simpl. repeat split.
Qed.

Context {World : Type}.

(** With enough fuel, [doUntilErr] returns at the first non-nil error of the
    work function, having passed that error to [Fail]. *)
Lemma doUntilErr_returns (work : @workFunc World) (k : nat) :
  forall (fuel : nat) (w w1 w' : World) (e : error) (wen : workErrNotifier),
    nilRuns work k w w1 ->
    work w1 = Ret (w', Some e) ->
    k < fuel ->
    doUntilErr fuel work w wen = Some (Ret (w', Fail e wen)).
Proof.
  induction k as [|k IH]; intros fuel w w1 w' e wen Hruns Hlast Hfuel;
    (destruct fuel as [|fuel]; [lia |]); simpl in *.
  - subst w1. now rewrite Hlast.
  - destruct Hruns as [w2 [Hstep Hruns]]. rewrite Hstep.
    apply (IH fuel w2 w1 w' e wen); [assumption | assumption | lia].
Qed.

End ErrorNotifier.

(** ** Cancellation, the exit signal and the latch *)

Section Cancellation.

Context {World : Type}.

(** The input and output [select]s of [processModuleEvents] never block once
    the context is cancelled or the exit signal is set. *)
Lemma processModuleEvents_selects_do_not_block (e : env) :
  ctxDone e = true \/ ExitC (notifier e) = true ->
  blocks (readyRecv e) = false /\ blocks (readySend e) = false.
Proof.
  unfold readyRecv, readySend.
  intros [H | H]; rewrite H;
    destruct (eventSource e), (workItemInputReady e), (ctxDone e),
      (ExitC (notifier e)); simpl; split; congruence.
Qed.

(** C3.  With the exit signal set, the context not cancelled, nothing on the
    event source and the dispatcher not reading [workItemInput], both
    [select]s of [processEvents] block, while both [select]s of
    [processModuleEvents] proceed with the exit signal. *)
Theorem processEvents_selects_ignore_exit_signal :
  let e := {| ctxDone := false; eventSource := ChanEmpty;
              workItemInputReady := false;
              notifier := Fail (errorString "module failed") newWorkErrNotifier |} in
  ExitC (notifier e) = true
  /\ readyRecvPE e = [] /\ blocks (readyRecvPE e) = true
  /\ readySendPE e = [] /\ blocks (readySendPE e) = true
  /\ readyRecv e = [RecvExitC]
  /\ readySend e = [SendExitC].
Proof. simpl. repeat split. Qed.

(** C2, as the code has it.  [doUntilErr] passes the first non-nil error of
    its work function to [Fail], [ErrStopped] included; [ErrStopped] is then
    the latched error exactly when no error was latched before, and an error
    latched before stays.  [processModuleEvents] returns a nil error when one
    of its [select]s proceeds with the cancellation or with the exit
    signal. *)
Theorem ErrStopped_latched_only_first (work : @workFunc World) (k fuel : nat)
    (w w1 w' : World) (wen : workErrNotifier) (n : Node) (stack : string)
    (module : Module) (sc : sendCase) (tr : list effect) (out : EventList) :
  nilRuns work k w w1 ->
  work w1 = Ret (w', Some ErrStopped) ->
  k < fuel ->
  doUntilErr fuel work w wen = Some (Ret (w', Fail ErrStopped wen))
  /\ Err (Fail ErrStopped wen)
     = match Err wen with Some e0 => Some e0 | None => Some ErrStopped end
  /\ processModuleEvents n stack module RecvCtxDone sc = ([], Ret (None, false))
  /\ processModuleEvents n stack module RecvExitC sc = ([], Ret (None, false))
  /\ (exists b, writeOutput tr out SendCtxDone = (tr, Ret (None, b)))
  /\ (exists b, writeOutput tr out SendExitC = (tr, Ret (None, b))).
Proof.
  intros Hruns Hlast Hfuel. split; [| split].
  - now apply (doUntilErr_returns work k fuel w w1 w').
  - apply Err_Fail.
  - repeat split; unfold writeOutput; destruct (Nat.eqb (Len out) 0); eauto.
Qed.

End Cancellation.

(** A worker whose [processEvents] returns only because the context is
    cancelled: [doUntilErr] calls [Fail] with [ErrStopped], which is then the
    latched error. *)
Lemma doUntilErr_latches_ErrStopped :
  let n := mkNode false in
  let e := {| ctxDone := true; eventSource := ChanEmpty;
              workItemInputReady := false; notifier := newWorkErrNotifier |} in
  let work := processEventsWork n (fun evs => Ret (evs, None))
                                (fun _ => (PERecvCtxDone, PESendCtxDone)) in
  readyRecvPE e = [PERecvCtxDone]
  /\ processEvents n (fun evs => Ret (evs, None)) PERecvCtxDone PESendCtxDone
     = ([], Ret (Some ErrStopped))
  /\ doUntilErr 1 work 0 (notifier e)
     = Some (Ret (1, Fail ErrStopped newWorkErrNotifier))
  /\ Err (Fail ErrStopped newWorkErrNotifier) = Some ErrStopped.
Proof. simpl. repeat split. Qed.

(** ** Instances *)

Lemma ErrStopped_latched_only_first_witness :
  let work := processEventsWork (mkNode false) (fun evs => Ret (evs, None))
                (fun i => if Nat.eqb i 0 then (PERecv (Some []), PESendOk)
                          else (PERecvCtxDone, PESendOk)) in
  doUntilErr 2 work 0 newWorkErrNotifier
  = Some (Ret (2, Fail ErrStopped newWorkErrNotifier)).
Proof.
  intros work.
  apply (ErrStopped_latched_only_first work 1 2 0 1 2 newWorkErrNotifier
           (mkNode false) EmptyString (IsPassive echo) SendOk [] []).
  - simpl. exists 1. split; reflexivity.
  - reflexivity.
  - lia.
Defined.

Lemma safelyApplyEvents_guards_passive_only_witness :
  (exists e : error,
      safelyApplyEvents "goroutine 1 [running]" boom
        (fst (StripFollowUps [mkEvent "boom" "x" [mkEvent "m2" "y" []]]))
      = (EmptyList, Some e)
      /\ contains "kapow" (Error e)
      /\ contains "goroutine 1 [running]" (Error e)
      /\ snd (processModuleEvents (mkNode false) "goroutine 1 [running]"
                (IsPassive boom)
                (RecvEvents [mkEvent "boom" "x" [mkEvent "m2" "y" []]]) SendOk)
         = Ret (Some e, false))
  /\ snd (processModuleEvents (mkNode false) "goroutine 1 [running]"
            (IsActive (fun _ => Panic panicNil))
            (RecvEvents [mkEvent "boom" "x" [mkEvent "m2" "y" []]]) SendOk)
     = Panic panicNil.
Proof.
  apply (safelyApplyEvents_guards_passive_only (mkNode false)
           "goroutine 1 [running]" [mkEvent "boom" "x" [mkEvent "m2" "y" []]]
           SendOk (panicOther "kapow") panicNil boom (fun _ => Panic panicNil)).
  - reflexivity.
  - discriminate.
  - reflexivity.
Defined.

(** A passive module whose panic [recover()] returns as nil: the guarded call
    returns a nil error, and the cycle goes on as if the module had returned
    no events. *)
Lemma safelyApplyEvents_nil_panic_swallowed :
  boomNil [] = Panic panicNil
  /\ safelyApplyEvents "goroutine 1 [running]" boomNil [] = (EmptyList, None)
  /\ ~ (exists e : error,
          snd (safelyApplyEvents "goroutine 1 [running]" boomNil []) = Some e).
Proof.
  repeat split. intros [e He]. discriminate.
Qed.

Lemma outbound_list_composition_witness :
  exists out : EventList,
    sent (fst (processModuleEvents (mkNode true) EmptyString (IsPassive echo)
                 (RecvEvents [mkEvent "echo" "x" [mkEvent "m2" "y" []]]) SendOk))
    = match out with [] => [] | _ :: _ => [out] end
    /\ exists newEvents,
         (echo (fst (StripFollowUps [mkEvent "echo" "x" [mkEvent "m2" "y" []]]))
          = Ret (newEvents, None)
          \/ (echo (fst (StripFollowUps [mkEvent "echo" "x" [mkEvent "m2" "y" []]]))
              = Panic panicNil /\ newEvents = []))
         /\ out = snd (StripFollowUps [mkEvent "echo" "x" [mkEvent "m2" "y" []]])
                  ++ newEvents.
Proof.
  apply (outbound_list_composition (mkNode true) EmptyString (IsPassive echo)
           [mkEvent "echo" "x" [mkEvent "m2" "y" []]] SendOk).
  reflexivity.
Defined.


Lemma empty_outbound_is_dropped_witness :
  dispatchAll {[ "m" := [] ]}
    ([[mkEvent "m" "a" []]]
     ++ sent (fst (processModuleEventsAlways (mkNode false) EmptyString (IsActive sink)
                     (RecvEvents [mkEvent "m" "b" []]) SendOk))
     ++ [[mkEvent "m" "c" []]])
  = dispatchAll {[ "m" := [] ]}
    ([[mkEvent "m" "a" []]]
     ++ sent (fst (processModuleEvents (mkNode false) EmptyString (IsActive sink)
                     (RecvEvents [mkEvent "m" "b" []]) SendOk))
     ++ [[mkEvent "m" "c" []]]).
Proof.
  apply (empty_outbound_is_dropped (mkNode false) EmptyString (IsActive sink)
           [mkEvent "m" "b" []] [ApplyActive [mkEvent "m" "b" []]] SendOk
           {[ "m" := [] ]} [[mkEvent "m" "a" []]] [[mkEvent "m" "c" []]]).
  reflexivity.
Defined.

Lemma Fail_idempotent_witness :
  Err (Fail (errorString "second") (Fail (errorString "first") newWorkErrNotifier))
  = Some (errorString "first").
Proof.
  apply (Fail_idempotent (errorString "first") (errorString "second")
           newWorkErrNotifier).
  reflexivity.
Defined.

(** ** The fake batch database *)

Section FakeBatchDB.

Import fakebatchdb.

Context {Transaction : Type}.

Implicit Types (store : gmap TxID (TransactionPtr Transaction)).
Implicit Types (txs : list (TransactionPtr Transaction)).
Implicit Types (ids : list TxID) (state : moduleState Transaction).

(** The loop over [txIDs] completes when [txs] is long enough; it leaves the
    other keys alone and, the identifiers being distinct, maps the [j]-th
    identifier to the transaction at the same index. *)
Lemma storeTransactions_spec ids :
  forall (i : nat) txs store,
    i + length ids <= length txs ->
    exists store',
      storeTransactions i ids txs store = Some store'
      /\ (forall id, id ∉ ids -> store' !! id = store !! id)
      /\ (NoDup ids -> forall j id, ids !! j = Some id ->
            store' !! id = txs !! (i + j)).
Proof.
  induction ids as [|txID rest IH]; intros i txs store Hlen; simpl in *.
  - exists store. split; [reflexivity |]. split.
    + intros id _. reflexivity.
    + intros _ j id Hj. discriminate.
  - destruct (lookup_lt_is_Some_2 txs i) as [tx Htx]; [lia |].
    rewrite Htx.
    destruct (IH (S i) txs (<[txID := tx]> store)) as [store' [Hrun [Hother Hidx]]];
      [lia |].
    exists store'. split; [assumption |]. split.
    + intros id Hid. apply not_elem_of_cons in Hid as [Hne Hid].
      rewrite (Hother id Hid). now apply lookup_insert_ne.
    + intros Hnodup j id Hj. apply NoDup_cons in Hnodup as [Hfresh Hnodup].
      destruct j as [|j]; simpl in Hj.
      * inversion Hj; subst id.
        rewrite (Hother txID Hfresh), lookup_insert_eq, Nat.add_0_r.
        now rewrite Htx.
      * rewrite (Hidx Hnodup j id Hj). f_equal. lia.
Qed.


Example store_then_lookup (t1 t2 : Transaction) :
  let origin := mkStoreBatchOrigin "mempool" (Dsl 1) in
  let asker := mkLookupBatchOrigin "availability" (Dsl 7) in
  match UponStoreBatch newModuleState "b1" ["tx1"; "tx2"] [Some t1; Some t2] [] origin with
  | Some (state, evs) =>
      evs = [BatchStored "mempool" origin]
      /\ UponLookupBatch state "b1" asker
         = [LookupBatchResponse "availability" true [Some t1; Some t2] asker]
      /\ UponLookupBatch state "b2" asker
         = [LookupBatchResponse "availability" false [] asker]
  | None => False
  end.
Proof. vm_compute. repeat split. Qed.


End FakeBatchDB.


(** ** Slice helpers *)

Section SliceFill.

Context {T : Type}.

Lemma assign_in_range (arr : list T) (i : nat) (v : T) :
  i < length arr -> sliceutil.assign arr i v = Some (<[i := v]> arr).
Proof.
  intros Hi. unfold sliceutil.assign.
  destruct (Nat.ltb_spec i (length arr)); [reflexivity | lia].
Qed.

(** The filling loop stays in range and overwrites exactly the indices it
    visits. *)
Lemma Generate_from_lookup (f : nat -> T) (remaining : nat) :
  forall (i : nat) (arr : list T),
    i + remaining <= length arr ->
    exists arr',
      sliceutil.Generate_from f remaining i arr = Some arr'
      /\ length arr' = length arr
      /\ forall j, arr' !! j
                   = if bool_decide (i <= j < i + remaining)
                     then Some (f j) else arr !! j.
Proof.
  induction remaining as [|remaining IH]; intros i arr Hlen; simpl.
  - exists arr. repeat split. intros j.
    rewrite bool_decide_eq_false_2; [reflexivity | lia].
  - rewrite assign_in_range by lia.
    destruct (IH (S i) (<[i := f i]> arr)) as [arr' [Hrun [Hl Hlook]]].
    { rewrite length_insert. lia. }
    exists arr'. split; [assumption |]. split.
    { now rewrite Hl, length_insert. }
    intros j. rewrite Hlook.
    destruct (decide (j = i)) as [-> | Hne].
    + rewrite bool_decide_eq_false_2 by lia.
      rewrite bool_decide_eq_true_2 by lia.
      apply list_lookup_insert_eq. lia.
    + rewrite list_lookup_insert_ne by congruence.
      destruct (decide (i <= j < i + S remaining)).
      * rewrite !bool_decide_eq_true_2 by lia. reflexivity.
      * rewrite !bool_decide_eq_false_2 by lia. reflexivity.
Qed.

Lemma Repeat_from_Generate_from (value : T) (remaining : nat) :
  forall i arr,
    sliceutil.Repeat_from value remaining i arr
    = sliceutil.Generate_from (fun _ => value) remaining i arr.
Proof.
  induction remaining as [|remaining IH]; intros i arr; simpl; [reflexivity |].
  destruct (sliceutil.assign arr i value); [apply IH | reflexivity].
Qed.

(** X2.  [Generate] fails exactly when [make] does, that is for a negative
    length and for a length the runtime does not allocate; otherwise it
    returns the slice of [f 0], ..., [f (n - 1)], whatever the zero value. *)
Theorem Generate_spec (zero : T) (allocates : Z -> bool) (n : Z) (f : nat -> T) :
  sliceutil.Generate zero allocates n f
  = if (n <? 0)%Z || negb (allocates n) then None
    else Some (f <$> seq 0 (Z.to_nat n)).
Proof.
  unfold sliceutil.Generate, sliceutil.make.
  destruct (n <? 0)%Z; [reflexivity |].
  destruct (allocates n); [simpl | reflexivity].
  destruct (Generate_from_lookup f (Z.to_nat n) 0 (replicate (Z.to_nat n) zero))
    as [arr' [Hrun [Hl Hlook]]].
  { rewrite length_replicate. lia. }
  rewrite Hrun. f_equal. apply list_eq. intros j.
  rewrite Hlook, list_lookup_fmap. simpl.
  destruct (decide (j < Z.to_nat n)) as [Hj | Hj].
  - rewrite bool_decide_eq_true_2 by lia.
    rewrite lookup_seq_lt by assumption. reflexivity.
  - rewrite bool_decide_eq_false_2 by lia.
    rewrite lookup_seq_ge by lia.
    apply lookup_replicate_None. lia.
Qed.

(** X1.  [Repeat] fails exactly when [make] does, that is for a negative
    count and for a count the runtime does not allocate; otherwise it returns
    [n] copies of the value, and no zero value is left in the result. *)
Theorem Repeat_spec (zero value : T) (allocates : Z -> bool) (n : Z) :
  sliceutil.Repeat zero allocates value n
  = if (n <? 0)%Z || negb (allocates n) then None
    else Some (replicate (Z.to_nat n) value).
Proof.
  unfold sliceutil.Repeat, sliceutil.make.
  destruct (n <? 0)%Z; [reflexivity |].
  destruct (allocates n); [simpl | reflexivity].
  rewrite Repeat_from_Generate_from.
  destruct (Generate_from_lookup (fun _ => value) (Z.to_nat n) 0
              (replicate (Z.to_nat n) zero)) as [arr' [Hrun [Hl Hlook]]].
  { rewrite length_replicate. lia. }
  rewrite Hrun. f_equal. apply list_eq. intros j. rewrite Hlook. simpl.
  destruct (decide (j < Z.to_nat n)) as [Hj | Hj].
  - rewrite bool_decide_eq_true_2 by lia.
    symmetry. apply lookup_replicate_2. assumption.
  - rewrite bool_decide_eq_false_2 by lia.
    transitivity (@None T); [| symmetry]; apply lookup_replicate_None; lia.
Qed.

End SliceFill.

Section SliceTransform.

Context {T R : Type}.

Lemma Transform_from_lookup (f : nat -> T -> R) (ts : list T) :
  forall (i : nat) (rs : list R),
    i + length ts <= length rs ->
    exists rs',
      sliceutil.Transform_from f i ts rs = Some rs'
      /\ length rs' = length rs
      /\ forall j, rs' !! j
                   = if bool_decide (i <= j < i + length ts)
                     then f j <$> ts !! (j - i) else rs !! j.
Proof.
  induction ts as [|t rest IH]; intros i rs Hlen; simpl in *.
  - exists rs. repeat split. intros j.
    rewrite bool_decide_eq_false_2; [reflexivity | lia].
  - rewrite assign_in_range by lia.
    destruct (IH (S i) (<[i := f i t]> rs)) as [rs' [Hrun [Hl Hlook]]].
    { rewrite length_insert. lia. }
    exists rs'. split; [assumption |]. split.
    { now rewrite Hl, length_insert. }
    intros j. rewrite Hlook.
    destruct (decide (j = i)) as [-> | Hne].
    + rewrite bool_decide_eq_false_2 by lia.
      rewrite bool_decide_eq_true_2 by lia.
      rewrite Nat.sub_diag. simpl.
      apply list_lookup_insert_eq. lia.
    + rewrite list_lookup_insert_ne by congruence.
      destruct (decide (i <= j < i + S (length rest))).
      * rewrite !bool_decide_eq_true_2 by lia.
        replace (j - i) with (S (j - S i)) by lia. reflexivity.
      * rewrite !bool_decide_eq_false_2 by lia. reflexivity.
Qed.

Lemma Transform_imap (zero : R) (allocates : Z -> bool) (ts : list T)
    (f : nat -> T -> R) :
  sliceutil.Transform zero allocates ts f
  = if allocates (Z.of_nat (length ts)) then Some (imap f ts) else None.
Proof.
  unfold sliceutil.Transform, sliceutil.make.
  destruct (Z.ltb_spec (Z.of_nat (length ts)) 0); [lia |].
  destruct (allocates (Z.of_nat (length ts))); [| reflexivity].
  rewrite Nat2Z.id.
  destruct (Transform_from_lookup f ts 0 (replicate (length ts) zero))
    as [rs' [Hrun [Hl Hlook]]].
  { rewrite length_replicate. lia. }
  rewrite Hrun. f_equal. apply list_eq. intros j.
  rewrite Hlook, list_lookup_imap, Nat.sub_0_r. simpl.
  destruct (decide (j < length ts)) as [Hj | Hj].
  - rewrite bool_decide_eq_true_2 by lia. reflexivity.
  - rewrite bool_decide_eq_false_2 by lia.
    rewrite (lookup_ge_None_2 ts j) by lia. simpl.
    apply lookup_replicate_None. lia.
Qed.

(** X3.  [Transform] fails only when [make] does not allocate a slice of the
    result type as long as the input (no index goes out of range);
    otherwise it returns a slice as long as its input whose element at index
    [i] is [f i] of the input's element at [i]. *)
Theorem Transform_spec (zero : R) (allocates : Z -> bool) (ts : list T)
    (f : nat -> T -> R) :
  sliceutil.Transform zero allocates ts f
  = (if allocates (Z.of_nat (length ts)) then Some (imap f ts) else None)
  /\ length (imap f ts) = length ts
  /\ forall i, imap f ts !! i = f i <$> ts !! i.
Proof.
  split; [apply Transform_imap |].
  split; [apply length_imap | intros i; apply list_lookup_imap].
Qed.

End SliceTransform.

Section SliceTransformCompose.

Context {T R S : Type}.

(** X4.  Two [Transform]s in a row are one [Transform] with the two functions
    composed index by index: when the first returns a slice, transforming
    that slice does what the one [Transform] with the composed function
    does. *)
Theorem Transform_compose (zeroR : R) (zeroS : S) (allocR allocS : Z -> bool)
    (ts : list T) (rs : list R) (f : nat -> T -> R) (g : nat -> R -> S) :
  sliceutil.Transform zeroR allocR ts f = Some rs ->
  sliceutil.Transform zeroS allocS rs g
  = sliceutil.Transform zeroS allocS ts (fun i t => g i (f i t)).
Proof.
  rewrite !Transform_imap. intros Hfirst.
  destruct (allocR (Z.of_nat (length ts))); [| discriminate].
  inversion Hfirst; subst rs. rewrite length_imap.
  destruct (allocS (Z.of_nat (length ts))); [| reflexivity].
  f_equal. apply list_eq. intros i.
  rewrite !list_lookup_imap. now destruct (ts !! i).
Qed.

End SliceTransformCompose.

Section SliceFilter.

Context {T : Type}.

Lemma Filter_from_elem_of (f : nat -> T -> bool) (ts : list T) :
  forall (i : nat) (res : list T) (x : T),
    x ∈ sliceutil.Filter_from f i ts res
    <-> x ∈ res \/ exists j, ts !! j = Some x /\ f (i + j) x = true.
Proof.
  induction ts as [|t rest IH]; intros i res x; simpl.
  - split; [auto | intros [H | [j [Hj _]]]; [assumption | discriminate]].
  - rewrite IH. split.
    + intros [Hres | [j [Hj Hf]]].
      * destruct (f i t) eqn:Hfi; [| auto].
        apply elem_of_app in Hres as [Hres | Hx]; [auto |].
        apply list_elem_of_singleton in Hx as ->.
        right. exists 0. rewrite Nat.add_0_r. auto.
      * right. exists (S j). rewrite Nat.add_succ_r. auto.
    + intros [Hres | [j [Hj Hf]]].
      * left. destruct (f i t); [apply elem_of_app |]; auto.
      * destruct j as [|j]; simpl in Hj.
        -- inversion Hj; subst t. rewrite Nat.add_0_r in Hf. rewrite Hf.
           left. apply elem_of_app. right. now apply list_elem_of_singleton.
        -- right. exists j. rewrite Nat.add_succ_r in Hf. auto.
Qed.

Lemma Filter_from_sublist (f : nat -> T -> bool) (ts : list T) :
  forall (i : nat) (res : list T),
    exists kept,
      sliceutil.Filter_from f i ts res = res ++ kept /\ kept `sublist_of` ts.
Proof.
  induction ts as [|t rest IH]; intros i res; simpl.
  - exists []. rewrite app_nil_r. split; [reflexivity | constructor].
  - destruct (IH (S i) (if f i t then res ++ [t] else res)) as [kept [Hrun Hsub]].
    rewrite Hrun. destruct (f i t).
    + exists (t :: kept). rewrite <- app_assoc. split; [reflexivity |].
      now apply sublist_skip.
    + exists kept. split; [reflexivity |]. now apply sublist_cons.
Qed.

(** X5.  [Filter] keeps the elements in their order (the result is a sublist of
    the input), and keeps exactly the elements the predicate accepts at their
    index. *)
Theorem Filter_spec (ts : list T) (f : nat -> T -> bool) :
  sliceutil.Filter ts f `sublist_of` ts
  /\ forall x, x ∈ sliceutil.Filter ts f
               <-> exists i, ts !! i = Some x /\ f i x = true.
Proof.
  unfold sliceutil.Filter. split.
  - destruct (Filter_from_sublist f ts 0 []) as [kept [-> Hsub]]. assumption.
  - intros x. rewrite Filter_from_elem_of. split.
    + intros [H | H]; [now apply elem_of_nil in H | assumption].
    + auto.
Qed.

(** X6.  With a predicate that ignores the index, [Filter] is the standard
    filter, so that filtering twice is filtering once. *)
Theorem Filter_index_free (ts : list T) (p : T -> bool) :
  sliceutil.Filter ts (fun _ => p) = List.filter p ts
  /\ sliceutil.Filter (sliceutil.Filter ts (fun _ => p)) (fun _ => p)
     = sliceutil.Filter ts (fun _ => p).
Proof.
  assert (Hfrom : forall (l : list T) (i : nat) (res : list T),
             sliceutil.Filter_from (fun _ => p) i l res = res ++ List.filter p l).
  { induction l as [|t rest IH]; intros i res; simpl.
    - now rewrite app_nil_r.
    - rewrite IH. destruct (p t); [now rewrite <- app_assoc | reflexivity]. }
  assert (Hfilter : forall l, sliceutil.Filter l (fun _ => p) = List.filter p l).
  { intros l. unfold sliceutil.Filter. now rewrite Hfrom. }
  split; [apply Hfilter |].
  rewrite !Hfilter.
  induction ts as [|t rest IH]; simpl; [reflexivity |].
  destruct (p t) eqn:Hp; simpl; [rewrite Hp, IH |]; auto.
Qed.

End SliceFilter.

Section SliceComparable.

Context {T : Type} `{EqDecision T}.

Variable equals : T -> T -> option bool.

Lemma Contains_decides (ts : list T) (t : T) :
  sliceutil.decidesEquality equals ->
  sliceutil.Contains equals ts t = Some (bool_decide (t ∈ ts)).
Proof.
  intros Heq. induction ts as [|v rest IH]; cbn [sliceutil.Contains].
  - rewrite bool_decide_eq_false_2 by apply not_elem_of_nil. reflexivity.
  - rewrite (Heq v t). destruct (decide (v = t)) as [-> | Hne].
    + rewrite bool_decide_eq_true_2 by reflexivity.
      rewrite bool_decide_eq_true_2 by (apply elem_of_cons; auto). reflexivity.
    + rewrite bool_decide_eq_false_2 by assumption. rewrite IH. f_equal.
      apply bool_decide_ext. rewrite elem_of_cons.
      split; [auto | intros [H | H]; [congruence | assumption]].
Qed.

(** X7.  For an element type whose [==] decides equality, [Contains] never
    panics and returns true exactly when the element occurs in the slice. *)
Theorem Contains_spec (ts : list T) (t : T) :
  sliceutil.decidesEquality equals ->
  sliceutil.Contains equals ts t = Some (bool_decide (t ∈ ts)).
Proof. apply Contains_decides. Qed.

Lemma ContainsAll_decides (ts ts2 : list T) :
  sliceutil.decidesEquality equals ->
  sliceutil.ContainsAll equals ts ts2 = Some (bool_decide (ts2 ⊆ ts)).
Proof.
  intros Heq. induction ts2 as [|t rest IH]; cbn [sliceutil.ContainsAll].
  - rewrite bool_decide_eq_true_2; [reflexivity |].
    intros x Hx. now apply elem_of_nil in Hx.
  - rewrite (Contains_decides ts t Heq).
    destruct (decide (t ∈ ts)) as [Hin | Hnin].
    + rewrite bool_decide_eq_true_2 by assumption. rewrite IH. f_equal.
      apply bool_decide_ext. split.
      * intros Hrest x Hx. apply elem_of_cons in Hx as [-> | Hx]; auto.
      * intros Hall x Hx. apply Hall. apply elem_of_cons. auto.
    + rewrite bool_decide_eq_false_2 by assumption.
      rewrite bool_decide_eq_false_2; [reflexivity |].
      intros Hall. apply Hnin, Hall, elem_of_cons. auto.
Qed.

(** X8.  For an element type whose [==] decides equality, [ContainsAll ts ts2]
    never panics and returns true exactly when every element of [ts2] occurs
    in [ts]; in particular it is true for the empty [ts2]. *)
Theorem ContainsAll_spec (ts ts2 : list T) :
  sliceutil.decidesEquality equals ->
  sliceutil.ContainsAll equals ts ts2 = Some (bool_decide (ts2 ⊆ ts)).
Proof. apply ContainsAll_decides. Qed.

Lemma Equal_from_spec (s1 : list T) :
  sliceutil.decidesEquality equals ->
  forall (i : nat) (s2 : list T),
    length s2 = i + length s1 ->
    sliceutil.Equal_from equals i s1 s2 = Some (bool_decide (s1 = drop i s2)).
Proof.
  intros Heq. induction s1 as [|v rest IH]; intros i s2 Hlen;
    cbn [sliceutil.Equal_from length] in *.
  - rewrite drop_ge by lia. now rewrite bool_decide_eq_true_2.
  - destruct (lookup_lt_is_Some_2 s2 i) as [v2 Hv2]; [lia |].
    rewrite Hv2. rewrite (drop_S _ _ _ Hv2). rewrite (Heq v v2).
    destruct (decide (v = v2)) as [-> | Hne].
    + rewrite bool_decide_eq_true_2 by reflexivity.
      rewrite IH by lia. f_equal. apply bool_decide_ext.
      split; [intros -> | intros H; inversion H]; congruence.
    + rewrite bool_decide_eq_false_2 by assumption.
      rewrite bool_decide_eq_false_2 by congruence. reflexivity.
Qed.

(** X10.  For an element type whose [==] decides equality, [Equal] never
    panics, it never reads out of range in particular, and returns true
    exactly when the two slices are equal. *)
Theorem Equal_spec (s1 s2 : list T) :
  sliceutil.decidesEquality equals ->
  sliceutil.Equal equals s1 s2 = Some (bool_decide (s1 = s2)).
Proof.
  intros Heq. unfold sliceutil.Equal.
  destruct (Nat.eqb_spec (length s1) (length s2)) as [Hlen | Hlen]; simpl.
  - now rewrite Equal_from_spec by (assumption || lia).
  - rewrite bool_decide_eq_false_2 by congruence. reflexivity.
Qed.

(** X9.  For an element type whose [==] decides equality, what [Filter] keeps
    is contained in its input. *)
Theorem ContainsAll_Filter (ts : list T) (f : nat -> T -> bool) :
  sliceutil.decidesEquality equals ->
  sliceutil.ContainsAll equals ts (sliceutil.Filter ts f) = Some true.
Proof.
  intros Heq. rewrite (ContainsAll_decides _ _ Heq).
  rewrite bool_decide_eq_true_2; [reflexivity |]. intros t Ht.
  unfold sliceutil.Filter in Ht. apply Filter_from_elem_of in Ht.
  destruct Ht as [Ht | [i [Hi _]]]; [now apply elem_of_nil in Ht |].
  apply list_elem_of_lookup. eauto.
Qed.

(** X11.  [Any] finds an element exactly when the slice is not empty, and on
    the empty slice it returns the zero value; when the first element is
    equal to itself under [==], the element [Any] returns is one [Contains]
    finds. *)
Theorem Any_spec (zero : T) (ts : list T) :
  (forall x : T, equals x x = Some true) ->
  snd (sliceutil.Any zero ts) = negb (Nat.eqb (length ts) 0)
  /\ (if snd (sliceutil.Any zero ts)
      then sliceutil.Contains equals ts (fst (sliceutil.Any zero ts)) = Some true
      else sliceutil.Any zero ts = (zero, false) /\ ts = []).
Proof.
  intros Hrefl. destruct ts as [|t rest]; simpl; [auto |].
  split; [reflexivity |]. now rewrite Hrefl.
Qed.

End SliceComparable.

(** ** More on the worker routines *)

Section WorkerOutcomes.

Variable n : Node.
Variable stack : string.

Lemma sent_writeOutput (tr : list effect) (out : EventList) (sc : sendCase) :
  sent tr = [] ->
  sent (fst (writeOutput tr out sc)) = [] \/
  (sent (fst (writeOutput tr out sc)) = [out]
   /\ snd (writeOutput tr out sc) = Ret (None, true) /\ sc = SendOk).
Proof.
  intros Htr. unfold writeOutput.
  destruct (Nat.eqb (Len out) 0); [left; assumption |].
  destruct sc; simpl; auto.
  right. rewrite sent_app, Htr. auto.
Qed.

(** X12.  A cycle writes to [workItemInput] at most once, and only when it read an
    event list, proceeds with the send and returns [(nil, true)]: a cycle that
    ends with an error, by a panic, or by cancellation writes nothing. *)
Theorem processModuleEvents_writes_only_on_success (module : Module)
    (rc : recvCase) (sc : sendCase) :
  length (sent (fst (processModuleEvents n stack module rc sc))) <= 1
  /\ (sent (fst (processModuleEvents n stack module rc sc)) = []
      \/ (snd (processModuleEvents n stack module rc sc) = Ret (None, true)
          /\ sc = SendOk /\ exists L, rc = RecvEvents L)).
Proof.
  destruct rc as [L | | |]; simpl; try (split; [lia | auto]).
  pose proof (sent_processInput n stack module L) as Hin.
  destruct (processInput n stack module L) as [tr [early | out]]; simpl in *.
  - rewrite Hin. simpl. split; [lia | auto].
  - destruct (sent_writeOutput tr out sc Hin) as [-> | [-> [Hret ->]]]; simpl.
    + split; [lia | auto].
    + split; [lia |]. right. eauto.
Qed.


(** X15.  How [processEvents] can end.  It writes nothing unless it returns nil; a
    non-nil error is [ErrStopped], for a cancelled context only, or the error
    of the processing function wrapped under "could not process events: ",
    in which case the follow-ups stripped from the input are dropped. *)
Theorem processEvents_outcomes (processFunc : eventProcessor)
    (rc : recvCasePE) (sc : sendCasePE) :
  match snd (processEvents n processFunc rc sc) with
  | Ret (Some e) =>
      sent (fst (processEvents n processFunc rc sc)) = []
      /\ ((e = ErrStopped /\ (rc = PERecvCtxDone \/ sc = PESendCtxDone))
          \/ exists L newEvents e0,
               rc = PERecv (Some L)
               /\ processFunc (fst (StripFollowUps L)) = Ret (newEvents, Some e0)
               /\ e = wrapError ("could not process events: " ++ Error e0) e0)
  | Ret None =>
      length (sent (fst (processEvents n processFunc rc sc))) <= 1
      /\ exists L, rc = PERecv (Some L)
  | Panic _ => sent (fst (processEvents n processFunc rc sc)) = []
  end.
Proof.
  destruct rc as [[L|] |]; simpl; [| reflexivity | auto].
  destruct (StripFollowUps L) as [plain followUps] eqn:Hstrip. simpl.
  assert (Htr : sent (interceptEvents n plain ++ [Process plain]) = []).
  { now rewrite sent_app, sent_interceptEvents. }
  destruct (processFunc plain) as [[newEvents [e0|]] | r] eqn:Hpf; simpl.
  - split; [assumption |]. right. exists L, newEvents, e0.
    rewrite Hstrip. auto.
  - destruct (Nat.eqb _ 0); simpl.
    + rewrite Htr. simpl. split; [lia | eauto].
    + destruct sc; simpl.
      * rewrite sent_app, Htr. simpl. split; [lia | eauto].
      * split; [assumption |]. left. auto.
  - assumption.
Qed.

Lemma intercepted_app (tr1 tr2 : list effect) :
  intercepted (tr1 ++ tr2) = intercepted tr1 ++ intercepted tr2.
Proof.
  induction tr1 as [|ef tr1 IH]; [reflexivity |].
  destruct ef; simpl; now rewrite IH.
Qed.

(** X14.  Whatever the module is and however the cycle ends, even with an error, a
    panic or an unknown module type, the interceptor of a node that has one
    is handed the stripped list of every event list read, once; nothing is
    handed over when no list is read or no interceptor is configured. *)
Theorem processModuleEvents_intercepts_every_list (module : Module)
    (rc : recvCase) (sc : sendCase) :
  intercepted (fst (processModuleEvents n stack module rc sc))
  = match rc with
    | RecvEvents L => if interceptor n then [fst (StripFollowUps L)] else []
    | _ => []
    end.
Proof.
  destruct rc as [L | | |]; simpl; try reflexivity.
  unfold processInput. destruct (StripFollowUps L) as [plain followUps]. simpl.
  assert (Hic : intercepted (interceptEvents n plain)
                = if interceptor n then [plain] else []).
  { unfold interceptEvents. destruct (interceptor n); reflexivity. }
  destruct module as [pm | am | typeName].
  - destruct (safelyApplyEvents stack pm plain) as [newEvents [e|]]; simpl.
    + rewrite intercepted_app, Hic. simpl. apply app_nil_r.
    + unfold writeOutput. destruct (Nat.eqb _ 0); [| destruct sc]; simpl;
        rewrite ?intercepted_app, Hic; simpl; rewrite ?app_nil_r; reflexivity.
  - destruct (am plain) as [[e|] | r]; simpl;
      try (rewrite intercepted_app, Hic; simpl; apply app_nil_r).
    unfold writeOutput. destruct (Nat.eqb _ 0); [| destruct sc]; simpl;
      rewrite ?intercepted_app, Hic; simpl; rewrite ?app_nil_r; reflexivity.
  - simpl. apply Hic.
Qed.

(** X16.  Every registered module gets an inbound channel with nothing pending, and
    no other identifier has one. *)
Theorem newWorkChans_lookup (GenericModules : gmap ModuleID Module)
    (moduleID : ModuleID) :
  newWorkChans GenericModules !! moduleID
  = (fun _ => []) <$> (GenericModules !! moduleID).
Proof.
  unfold newWorkChans.
  apply (map_fold_weak_ind
           (fun (chans : workChans) (m : gmap ModuleID Module) =>
              chans !! moduleID = (fun _ => []) <$> (m !! moduleID))).
  - now rewrite !lookup_empty.
  - intros i x m r _ IH.
    destruct (decide (i = moduleID)) as [-> | Hne].
    + now rewrite !lookup_insert_eq.
    + now rewrite !lookup_insert_ne.
Qed.

End WorkerOutcomes.

Section DoUntilErrRuns.

Context {World : Type}.

(** X17.  When [doUntilErr] ends, the work function was called a number of times
    with a nil result and then once more: either that call returned a non-nil
    error, which is the one passed to [Fail], and [doUntilErr] returns; or
    that call panicked and the panic leaves [doUntilErr], [Fail] not being
    called. *)
Theorem doUntilErr_ends (work : @workFunc World) (fuel : nat) :
  forall (w : World) (wen : workErrNotifier) (res : call (World * workErrNotifier)),
    doUntilErr fuel work w wen = Some res ->
    exists k w1,
      k < fuel /\ nilRuns work k w w1
      /\ match res with
         | Ret (w', wen') =>
             exists e, work w1 = Ret (w', Some e) /\ wen' = Fail e wen
         | Panic r => work w1 = Panic r
         end.
Proof.
  induction fuel as [|fuel IH]; intros w wen res Hrun; simpl in Hrun;
    [discriminate |].
  destruct (work w) as [[w2 [e|]] | r] eqn:Hwork.
  - inversion Hrun; subst res. exists 0, w. simpl. split; [lia | eauto].
  - destruct (IH w2 wen res Hrun) as [k [w1 [Hk [Hruns Hres]]]].
    exists (S k), w1. split; [lia |]. split; [| assumption].
    simpl. eauto.
  - inversion Hrun; subst res. exists 0, w. simpl. split; [lia | auto].
Qed.

(** X18.  As long as the work function returns nil, [doUntilErr] keeps calling
    it. *)
Theorem doUntilErr_keeps_running (work : @workFunc World) (fuel : nat) :
  forall (w w' : World) (wen : workErrNotifier),
    nilRuns work fuel w w' ->
    doUntilErr fuel work w wen = None.
Proof.
  induction fuel as [|fuel IH]; intros w w' wen Hruns; simpl in *;
    [reflexivity |].
  destruct Hruns as [w1 [Hstep Hruns]]. rewrite Hstep. now apply (IH w1 w').
Qed.

End DoUntilErrRuns.

(** ** More on the fake batch database *)

Section FakeBatchDBMore.

Import fakebatchdb.

Context {Transaction : Type}.

Implicit Types (store : gmap TxID (TransactionPtr Transaction)).
Implicit Types (txs : list (TransactionPtr Transaction)).
Implicit Types (ids : list TxID) (state : moduleState Transaction).

Lemma storeTransactions_short ids :
  forall (i : nat) txs store,
    0 < length ids ->
    length txs < i + length ids ->
    storeTransactions i ids txs store = None.
Proof.
  induction ids as [|txID rest IH]; intros i txs store Hpos Hlen; simpl in *;
    [lia |].
  destruct (txs !! i) as [tx|] eqn:Htx; [| reflexivity].
  apply lookup_lt_Some in Htx. apply IH; lia.
Qed.

Lemma storeTransactions_other ids :
  forall (i : nat) txs store store' (id : TxID),
    storeTransactions i ids txs store = Some store' ->
    id ∉ ids ->
    store' !! id = store !! id.
Proof.
  induction ids as [|txID rest IH]; intros i txs store store' id Hrun Hid;
    simpl in Hrun.
  - now inversion Hrun.
  - apply not_elem_of_cons in Hid as [Hne Hid].
    destruct (txs !! i) as [tx|]; [| discriminate].
    rewrite (IH _ _ _ _ _ Hrun Hid). now apply lookup_insert_ne.
Qed.

Lemma storeTransactions_take ids :
  forall (i : nat) txs store,
    storeTransactions i ids (take (i + length ids) txs) store
    = storeTransactions i ids txs store.
Proof.
  induction ids as [|txID rest IH]; intros i txs store; simpl; [reflexivity |].
  rewrite lookup_take_lt by lia.
  destruct (txs !! i) as [tx|]; [| reflexivity].
  replace (i + S (length rest)) with (S i + length rest) by lia.
  apply IH.
Qed.

Lemma UponStoreBatch_None_iff state (batchID : BatchID) ids txs
    (meta : list Byte.byte) (origin : StoreBatchOrigin) :
  UponStoreBatch state batchID ids txs meta origin = None
  <-> length txs < length ids.
Proof.
  unfold UponStoreBatch. split.
  - intros Hnone. destruct (decide (length txs < length ids)) as [|Hge];
      [assumption |].
    destruct (storeTransactions_spec ids 0 txs (TransactionStore state))
      as [store' [Hrun _]]; [simpl; lia |].
    rewrite Hrun in Hnone. discriminate.
  - intros Hlt. rewrite storeTransactions_short; [reflexivity | lia | simpl; lia].
Qed.

(** X19.  The [StoreBatch] handler panics exactly when the origin of the event
    is nil or there are fewer transactions than identifiers. *)
Theorem receive_StoreBatch_panics_iff state (batchID : BatchID) ids txs
    (meta : list Byte.byte) (origin : option StoreBatchOrigin) :
  receive state (ReceivedStoreBatch batchID ids txs meta origin) = None
  <-> origin = None \/ length txs < length ids.
Proof.
  destruct origin as [origin|]; simpl.
  - rewrite UponStoreBatch_None_iff. split; [auto | intros [H | H]]; congruence.
  - split; auto.
Qed.

(** X20.  Transactions beyond the number of identifiers are ignored. *)
Theorem UponStoreBatch_ignores_extra_txs state (batchID : BatchID) ids txs
    (meta : list Byte.byte) (origin : StoreBatchOrigin) :
  UponStoreBatch state batchID ids (take (length ids) txs) meta origin
  = UponStoreBatch state batchID ids txs meta origin.
Proof.
  unfold UponStoreBatch.
  pose proof (storeTransactions_take ids 0 txs (TransactionStore state)) as H.
  simpl in H. now rewrite H.
Qed.

(** X21.  Storing a batch does not change what a lookup of another batch answers,
    provided the stored identifiers are not among those of that batch. *)
Theorem UponStoreBatch_other_batch state state' (b1 b2 : BatchID) ids txs
    (meta : list Byte.byte) (origin : StoreBatchOrigin)
    (evs : list (emitted Transaction)) (asker : LookupBatchOrigin) :
  UponStoreBatch state b2 ids txs meta origin = Some (state', evs) ->
  b1 <> b2 ->
  (forall info id, BatchStore state !! b1 = Some info ->
                   id ∈ txIDs info -> id ∉ ids) ->
  UponLookupBatch state' b1 asker = UponLookupBatch state b1 asker.
Proof.
  unfold UponStoreBatch. intros Hstore Hne Hdisjoint.
  destruct (storeTransactions 0 ids txs (TransactionStore state))
    as [transactions|] eqn:Hrun; [| discriminate].
  inversion Hstore; subst state' evs. clear Hstore.
  unfold UponLookupBatch. simpl.
  rewrite lookup_insert_ne by congruence.
  destruct (BatchStore state !! b1) as [info|] eqn:Hb1; [| reflexivity].
  f_equal. f_equal. apply list_fmap_ext. intros j id Hj.
  unfold txOf.
  rewrite (storeTransactions_other ids 0 txs _ _ id Hrun); [reflexivity |].
  apply (Hdisjoint info id eq_refl). apply list_elem_of_lookup. eauto.
Qed.

Lemma handleAll_stored (rs : list (request Transaction)) :
  forall state state' (batchID : BatchID),
    handleAll state rs = Some state' ->
    is_Some (BatchStore state' !! batchID)
    <-> is_Some (BatchStore state !! batchID) \/ batchID ∈ storedBatchIDs rs.
Proof.
  induction rs as [|r rest IH]; intros state state' batchID Hrun; simpl in Hrun.
  - inversion Hrun; subst. simpl. split; [auto |].
    intros [H | H]; [assumption | now apply elem_of_nil in H].
  - destruct r as [b ids txs meta origin | b origin]; simpl in Hrun |- *.
    + unfold UponStoreBatch in Hrun.
      destruct (storeTransactions 0 ids txs (TransactionStore state))
        as [transactions|]; [| discriminate].
      rewrite (IH _ _ batchID Hrun). simpl.
      rewrite elem_of_cons, lookup_insert_is_Some.
      destruct (decide (b = batchID)) as [-> | Hne]; [tauto |].
      split; [intros [[H | [_ H]] | H] | intros [H | [H | H]]]; auto; congruence.
    + apply (IH _ _ batchID Hrun).
Qed.

(** X22.  After any sequence of requests handled from the initial state, a lookup
    answers [found = true] exactly for the batches some request stored:
    batches are never removed. *)
Theorem lookup_found_iff_stored (history : list (request Transaction))
    (reached : moduleState Transaction) (batchID : BatchID)
    (asker : LookupBatchOrigin) :
  handleAll newModuleState history = Some reached ->
  batchID ∈ storedBatchIDs history
  <-> exists txs,
      UponLookupBatch reached batchID asker
      = [LookupBatchResponse (lookupModule asker) true txs asker].
Proof.
  intros Hrun.
  pose proof (handleAll_stored history newModuleState reached batchID Hrun) as H.
  simpl in H. rewrite lookup_empty in H. unfold UponLookupBatch.
  split.
  - intros Hin. destruct (proj2 H (or_intror Hin)) as [info Hinfo].
    rewrite Hinfo. eauto.
  - intros [txs Hlook].
    destruct (BatchStore reached !! batchID) as [info|] eqn:Hinfo.
    + destruct (proj1 H (ex_intro _ info eq_refl)) as [[x Hx] | Hin];
        [discriminate | assumption].
    + inversion Hlook.
Qed.

(** X23.  A sequence of events makes the module panic exactly when one of them
    is a [StoreBatch] with a nil origin or with fewer transactions than
    identifiers, or a [LookupBatch] with a nil origin. *)
Theorem receiveAll_panics_iff (evs : list (received Transaction)) :
  forall state,
    receiveAll state evs = None
    <-> Exists (fun ev => match ev with
                          | ReceivedStoreBatch _ ids txs _ origin =>
                              origin = None \/ length txs < length ids
                          | ReceivedLookupBatch _ origin => origin = None
                          end) evs.
Proof.
  induction evs as [|ev rest IH]; intros state; simpl.
  - split; [discriminate | intros H; inversion H].
  - rewrite Exists_cons.
    destruct ev as [b ids txs meta [origin|] | b [origin|]]; simpl.
    + destruct (UponStoreBatch state b ids txs meta origin) as [[state' evs]|]
        eqn:Hstore.
      * rewrite IH. split; [auto |].
        intros [[Hnil | Hshort] | Hrest]; [discriminate | | assumption].
        apply (proj2 (UponStoreBatch_None_iff state b ids txs meta origin))
          in Hshort. congruence.
      * apply UponStoreBatch_None_iff in Hstore. tauto.
    + tauto.
    + rewrite IH. split; [auto | intros [Hnil | Hrest]; [discriminate | assumption]].
    + tauto.
Qed.

End FakeBatchDBMore.

(** ** More instances *)

Lemma doUntilErr_ends_witness :
  let work := processEventsWork (mkNode false) (fun evs => Ret (evs, None))
                (fun i => if Nat.eqb i 0 then (PERecv (Some []), PESendOk)
                          else (PERecvCtxDone, PESendOk)) in
  exists k w1,
    k < 2 /\ nilRuns work k 0 w1
    /\ exists e, work w1 = Ret (2, Some e)
                 /\ Fail ErrStopped newWorkErrNotifier = Fail e newWorkErrNotifier.
Proof.
  intros work.
  apply (doUntilErr_ends work 2 0 newWorkErrNotifier
           (Ret (2, Fail ErrStopped newWorkErrNotifier))).
  reflexivity.
Defined.

Lemma doUntilErr_keeps_running_witness :
  doUntilErr 3
    (processEventsWork (mkNode false) (fun evs => Ret (evs, None))
       (fun _ => (PERecv (Some []), PESendOk)))
    0 newWorkErrNotifier
  = None.
Proof.
  apply (doUntilErr_keeps_running
           (processEventsWork (mkNode false) (fun evs => Ret (evs, None))
              (fun _ => (PERecv (Some []), PESendOk)))
           3 0 3 newWorkErrNotifier).
  simpl. repeat (eexists; split; [reflexivity |]). reflexivity.
Defined.

Lemma lookup_found_iff_stored_witness :
  let origin := fakebatchdb.mkStoreBatchOrigin "mempool" (fakebatchdb.Dsl 1) in
  let asker := fakebatchdb.mkLookupBatchOrigin "availability" (fakebatchdb.Dsl 7) in
  "b1" ∈ fakebatchdb.storedBatchIDs
           [fakebatchdb.StoreBatch "b1" ["tx1"] [Some 5] [] origin]
  <-> exists txs,
      fakebatchdb.UponLookupBatch
        {| fakebatchdb.BatchStore :=
             {[ "b1" := fakebatchdb.mkBatchInfo ["tx1"] [] ]};
           fakebatchdb.TransactionStore := {[ "tx1" := Some 5 ]} |}
        "b1" asker
      = [fakebatchdb.LookupBatchResponse "availability" true txs asker].
Proof.
  intros origin asker.
  apply (lookup_found_iff_stored (Transaction := nat)
           [fakebatchdb.StoreBatch "b1" ["tx1"] [Some 5] [] origin]).
  vm_compute. reflexivity.
Defined.

Lemma UponStoreBatch_other_batch_witness :
  let asker := fakebatchdb.mkLookupBatchOrigin "availability" (fakebatchdb.Dsl 7) in
  fakebatchdb.UponLookupBatch
    {| fakebatchdb.BatchStore :=
         <[ "b2" := fakebatchdb.mkBatchInfo ["tx2"] [] ]>
           {[ "b1" := fakebatchdb.mkBatchInfo ["tx1"] [] ]};
       fakebatchdb.TransactionStore :=
         <[ "tx2" := Some 6 ]> {[ "tx1" := Some 5 ]} |}
    "b1" asker
  = fakebatchdb.UponLookupBatch
      {| fakebatchdb.BatchStore :=
           {[ "b1" := fakebatchdb.mkBatchInfo ["tx1"] [] ]};
         fakebatchdb.TransactionStore := {[ "tx1" := Some 5 ]} |}
      "b1" asker.
Proof.
  intros asker.
  apply (UponStoreBatch_other_batch (Transaction := nat) _ _ "b1" "b2" ["tx2"]
           [Some 6] []
           (fakebatchdb.mkStoreBatchOrigin "mempool" (fakebatchdb.Dsl 1))
           [fakebatchdb.BatchStored "mempool"
              (fakebatchdb.mkStoreBatchOrigin "mempool" (fakebatchdb.Dsl 1))]).
  - reflexivity.
  - discriminate.
  - intros info id Hinfo Hid. vm_compute in Hinfo. inversion Hinfo; subst info.
    simpl in Hid. apply list_elem_of_singleton in Hid as ->.
    intros H. apply list_elem_of_singleton in H. discriminate.
Defined.


Lemma intEquals_decides : sliceutil.decidesEquality sliceutil.intEquals.
Proof.
  intros x y. unfold sliceutil.intEquals. f_equal.
  destruct (Z.eqb_spec x y) as [Heq | Hne].
  - now rewrite bool_decide_eq_true_2.
  - now rewrite bool_decide_eq_false_2.
Qed.

Lemma Transform_compose_witness :
  sliceutil.Transform 0%Z (fun _ => true) [true; false]
    (fun i (t : bool) => if t then Z.of_nat i else 7%Z)
  = Some [0%Z; 7%Z]
  /\ sliceutil.Transform EmptyString (fun _ => true) [0%Z; 7%Z]
       (fun _ r => if (r =? 7)%Z then "seven" else "other")
     = sliceutil.Transform EmptyString (fun _ => true) [true; false]
         (fun i t => if ((if t then Z.of_nat i else 7) =? 7)%Z
                     then "seven" else "other").
Proof.
  split; [reflexivity |].
  apply (Transform_compose 0%Z EmptyString (fun _ => true) (fun _ => true)
           [true; false] [0%Z; 7%Z]
           (fun i (t : bool) => if t then Z.of_nat i else 7%Z)
           (fun _ r => if (r =? 7)%Z then "seven" else "other")).
  reflexivity.
Defined.

Lemma Contains_spec_witness :
  sliceutil.Contains sliceutil.intEquals [1; 2; 3]%Z 2%Z
  = Some (bool_decide (2%Z ∈ [1; 2; 3]%Z)).
Proof.
  apply (Contains_spec sliceutil.intEquals [1; 2; 3]%Z 2%Z).
  apply intEquals_decides.
Defined.

Lemma ContainsAll_spec_witness :
  sliceutil.ContainsAll sliceutil.intEquals [1; 2; 3]%Z [3; 1]%Z
  = Some (bool_decide ([3; 1]%Z ⊆ [1; 2; 3]%Z)).
Proof.
  apply (ContainsAll_spec sliceutil.intEquals [1; 2; 3]%Z [3; 1]%Z).
  apply intEquals_decides.
Defined.

Lemma Equal_spec_witness :
  sliceutil.Equal sliceutil.intEquals [1; 2]%Z [1; 3]%Z
  = Some (bool_decide ([1; 2]%Z = [1; 3]%Z)).
Proof.
  apply (Equal_spec sliceutil.intEquals [1; 2]%Z [1; 3]%Z).
  apply intEquals_decides.
Defined.

Lemma ContainsAll_Filter_witness :
  sliceutil.ContainsAll sliceutil.intEquals [1; 2; 3]%Z
    (sliceutil.Filter [1; 2; 3]%Z (fun i _ => Nat.even i))
  = Some true.
Proof.
  apply (ContainsAll_Filter sliceutil.intEquals [1; 2; 3]%Z
           (fun i _ => Nat.even i)).
  apply intEquals_decides.
Defined.

Lemma Any_spec_witness :
  snd (sliceutil.Any 0%Z [4; 5]%Z) = negb (Nat.eqb (length [4; 5]%Z) 0)
  /\ sliceutil.Contains sliceutil.intEquals [4; 5]%Z
       (fst (sliceutil.Any 0%Z [4; 5]%Z))
     = Some true.
Proof.
  apply (Any_spec sliceutil.intEquals 0%Z [4; 5]%Z).
  intros x. unfold sliceutil.intEquals. now rewrite Z.eqb_refl.
Defined.
